(** * Booking reviews scraper: the extraction and persistence pipeline

    A shallow embedding of the pure cores of
    [src/booking/scraping_all_booking_with_categories.py] and
    [src/multi_thread_booking_scraper.py]: text normalisation and
    validation ([DataValidator], [GeocodeService.extract_zone]), URL
    discovery and de-duplication, work partitioning, the strategy cascade
    of [_extract_price], the CSV writer [save_to_csv] and the worker loop
    [worker_thread].

    Conventions.
    - A Python [str] is a [string]: the UTF-8 bytes of the text.  Where
      the code tells characters apart by class ([\d], [\s], [str.isdigit],
      [str.strip]) the text is read character by character and the
      classes are the tables of [Unicode], those of Unicode 14.  The
      helpers [Py.is_digit], [Py.is_space] and [Py.strip] stay within
      ASCII; they serve [float_of_text], the [float] of the examples.
    - A Python [float] is a primitive binary64 [float].
    - [None] in an [Optional] result is [None]; a caught exception is an
      explicit outcome.
    - The browser is outside the model: what a page yields is an input. *)

From Stdlib Require Import ZArith Floats Ascii.
From stdpp Require Import gmap strings list sorting pretty.

#[local] Set Warnings "-inexact-float,-clear-no-such-hyp".
#[local] Open Scope string_scope.
#[local] Open Scope list_scope.
#[local] Open Scope nat_scope.

(** ** Python built-ins used by the scripts *)

Module Py.

(** The values that occur in the scraped dictionaries. *)
Inductive pyval : Type :=
| PNone
| PBool (b : bool)
| PInt (z : Z)
| PFloat (f : float)
| PStr (s : string).

(** [bool(v)]: the truth value Python gives to [v] in [if v] and [any]. *)
Definition truthy (v : pyval) : bool :=
  match v with
  | PNone => false
  | PBool b => b
  | PInt z => negb (z =? 0)%Z
  | PFloat f => negb (PrimFloat.eqb f 0%float)
  | PStr s => negb (String.eqb s "")
  end.

(** Truth value of an [Optional[str]] value. *)
Definition some_text (o : option string) : bool :=
  match o with
  | Some s => negb (String.eqb s "")
  | None => false
  end.

(** [d.get(key)] on a dictionary: [None] for a missing key. *)
Definition dict_get (d : gmap string pyval) (key : string) : pyval :=
  default PNone (d !! key).

Definition is_digit (c : ascii) : bool :=
  let n := nat_of_ascii c in (48 <=? n)%nat && (n <=? 57)%nat.

(** White space as [str.strip()] sees it, within ASCII:
    tab, LF, VT, FF, CR, the separators 28..31 and the blank. *)
Definition is_space (c : ascii) : bool :=
  let n := nat_of_ascii c in
  ((9 <=? n)%nat && (n <=? 13)%nat) || ((28 <=? n)%nat && (n <=? 32)%nat).

Fixpoint str_map (f : ascii → ascii) (s : string) : string :=
  match s with
  | "" => ""
  | String c r => String (f c) (str_map f r)
  end.

Fixpoint str_forallb (p : ascii → bool) (s : string) : bool :=
  match s with
  | "" => true
  | String c r => p c && str_forallb p r
  end.

(** [c in s] for a one-character [c]. *)
Fixpoint char_in (c : ascii) (s : string) : bool :=
  match s with
  | "" => false
  | String d r => Ascii.eqb c d || char_in c r
  end.

Fixpoint starts_with (p s : string) : bool :=
  match p, s with
  | "", _ => true
  | String a p', String b s' => Ascii.eqb a b && starts_with p' s'
  | String _ _, "" => false
  end.

(** [p in s] on strings: [p] occurs in [s] as a substring. *)
Fixpoint str_in (p s : string) : bool :=
  starts_with p s ||
  match s with
  | "" => false
  | String _ r => str_in p r
  end.

Fixpoint lstrip (s : string) : string :=
  match s with
  | "" => ""
  | String c r => if is_space c then lstrip r else s
  end.

Fixpoint rstrip (s : string) : string :=
  match s with
  | "" => ""
  | String c r =>
      match rstrip r with
      | "" => if is_space c then "" else String c ""
      | r' => String c r'
      end
  end.

(** The white space that [float] skips at the two ends, within ASCII. *)
Definition strip (s : string) : string := rstrip (lstrip s).

(** [s.split(sep)] for a one-character separator; never the empty list. *)
Fixpoint split (sep : ascii) (s : string) : list string :=
  match s with
  | "" => [""]
  | String c r =>
      if Ascii.eqb c sep then "" :: split sep r
      else match split sep r with
           | h :: t => String c h :: t
           | [] => [String c ""]
           end
  end.

(** [l.index(x)]: the first position holding [x]; [None] is ValueError. *)
Fixpoint index (x : string) (l : list string) : option nat :=
  match l with
  | [] => None
  | y :: r => if String.eqb y x then Some 0%nat else S <$> index x r
  end.

(** [l[start:stop]] for non-negative bounds; out-of-range bounds clamp. *)
Definition slice {A} (l : list A) (start stop : nat) : list A :=
  take (stop - start) (drop start l).

(** *** [float(text)] on plain decimal notation

    [float_of_text] is [float] on the texts of the examples below: an
    optional sign, ASCII digits and at most one decimal point, surrounded
    by ASCII white space.  The digits of other scripts, exponents,
    underscores and the spellings of infinity and NaN are outside it.  The decimal [m / 10^k] is rounded to the nearest
    binary64 by one correctly rounded division of the exact operands. *)

Fixpoint digits_value (acc : N) (s : string) : N :=
  match s with
  | "" => acc
  | String c r => digits_value (10 * acc + (N_of_ascii c - 48))%N r
  end.

Definition unsigned_decimal (s : string) : option spec_float :=
  match split "."%char s with
  | [ip] =>
      if str_forallb is_digit ip && negb (String.eqb ip "") then
        Some (match digits_value 0 ip with
              | N0 => S754_zero false
              | Npos m => SFdiv prec emax (S754_finite false m 0) (S754_finite false 1 0)
              end)
      else None
  | [ip; fp] =>
      if str_forallb is_digit ip && str_forallb is_digit fp
         && negb (String.eqb (ip +:+ fp) "") then
        Some (match digits_value 0 (ip +:+ fp) with
              | N0 => S754_zero false
              | Npos m =>
                  SFdiv prec emax (S754_finite false m 0)
                    (S754_finite false (Nat.iter (String.length fp) (Pos.mul 10) 1%positive) 0)
              end)
      else None
  | _ => None
  end.

Definition float_of_text (text : string) : option float :=
  match strip text with
  | String "-"%char r => (λ x, SF2Prim (SFopp x)) <$> unsigned_decimal r
  | String "+"%char r => SF2Prim <$> unsigned_decimal r
  | s => SF2Prim <$> unsigned_decimal s
  end.

End Py.

Import Py.

(** ** Characters

    A Python [str] is a sequence of characters; the [string] that stands
    for it holds their UTF-8 bytes.  The scripts filter, strip and match
    texts character by character, with the character classes of Python:
    white space for [str.strip()] and [\s], the decimal digits of every
    script for [\d], and these and further digits for [str.isdigit].  The
    tables are those of Unicode 14, which Python 3.11 carries. *)

Module Unicode.

(** A byte [10xxxxxx] continues the character before it. *)
Definition continues (c : ascii) : bool :=
  let n := nat_of_ascii c in (128 <=? n) && (n <? 192).

Definition is_ascii (c : ascii) : bool := nat_of_ascii c <? 128.

(** The characters of a text, each as its bytes. *)
Fixpoint chars (s : string) : list string :=
  match s with
  | "" => []
  | String c r =>
      match chars r with
      | String d h :: t =>
          if continues d && negb (is_ascii c) then String c (String d h) :: t
          else String c "" :: String d h :: t
      | t => String c "" :: t
      end
  end.

(** ["".join(parts)] *)
Definition join (parts : list string) : string := String.concat "" parts.

#[local] Open Scope N_scope.

(** The bytes of the character with this code point. *)
Definition encode (code : N) : string :=
  let byte (n : N) : ascii := ascii_of_N n in
  if code <? 128 then String (byte code) ""
  else if code <? 2048 then
    String (byte (192 + code / 64)) (String (byte (128 + code mod 64)) "")
  else if code <? 65536 then
    String (byte (224 + code / 4096))
      (String (byte (128 + (code / 64) mod 64)) (String (byte (128 + code mod 64)) ""))
  else
    String (byte (240 + code / 262144))
      (String (byte (128 + (code / 4096) mod 64))
         (String (byte (128 + (code / 64) mod 64)) (String (byte (128 + code mod 64)) ""))).

(** The characters with the code points [first] to [last]. *)
Definition range (bounds : N * N) : list string :=
  (λ k, encode (bounds.1 + N.of_nat k)) <$> seq 0%nat (S (N.to_nat (bounds.2 - bounds.1))).

(** White space: the characters [str.strip()] removes and [\s] matches. *)
Definition whitespace : list string :=
  concat (range <$>
    [ (9, 13); (28, 32); (133, 133); (160, 160);
      (5760, 5760); (8192, 8202); (8232, 8233); (8239, 8239);
      (8287, 8287); (12288, 12288) ]).

Definition isspace (ch : string) : bool := bool_decide (ch ∈ whitespace).

(** The digit zero of every script that has decimal digits; the nine
    other digits follow it. *)
Definition decimal_zeros : list N :=
  [ 48; 1632; 1776; 1984; 2406; 2534; 2662; 2790;
    2918; 3046; 3174; 3302; 3430; 3558; 3664; 3792;
    3872; 4160; 4240; 6112; 6160; 6470; 6608; 6784;
    6800; 6992; 7088; 7232; 7248; 42528; 43216; 43264;
    43472; 43504; 43600; 44016; 65296; 66720; 68912; 69734;
    69872; 69942; 70096; 70384; 70736; 70864; 71248; 71360;
    71472; 71904; 72016; 72784; 73040; 73120; 92768; 92864;
    93008; 120782; 120792; 120802; 120812; 120822; 123200; 123632;
    125264; 130032 ].

(** Decimal digits: the characters [\d] matches, [str.isdecimal]. *)
Definition decimals : list string :=
  concat ((λ zero, range (zero, zero + 9)) <$> decimal_zeros).

Definition isdecimal (ch : string) : bool := bool_decide (ch ∈ decimals).

(** The digits that are not decimal: superscripts, subscripts, circled
    digits and the like. *)
Definition other_digits : list string :=
  concat (range <$>
    [ (178, 179); (185, 185); (4969, 4977); (6618, 6618);
      (8304, 8304); (8308, 8313); (8320, 8329); (9312, 9320);
      (9332, 9340); (9352, 9360); (9450, 9450); (9461, 9469);
      (9471, 9471); (10102, 10110); (10112, 10120); (10122, 10130);
      (68160, 68163); (69216, 69224); (69714, 69722); (127232, 127242) ]).

(** [str.isdigit] on one character. *)
Definition isdigit (ch : string) : bool :=
  isdecimal ch || bool_decide (ch ∈ other_digits).

(** The value of a decimal digit. *)
Definition decimal_value (ch : string) : option N :=
  (λ found : nat * string, N.of_nat (found.1 mod 10)%nat)
    <$> list_find (λ digit, digit = ch) decimals.

(** [int(text)] on a text made of digits: the number its decimal digits
    write in base ten; [None], the ValueError, for the empty text and for
    a text with a digit that is not decimal.  Signs, blanks, underscores
    and the limit Python puts on the length of the text are outside it. *)
Definition int_of_text (text : string) : option N :=
  match chars text with
  | [] => None
  | digits =>
      foldl (λ value ch, value ≫= λ v, (λ d, 10 * v + d) <$> decimal_value ch)
        (Some 0) digits
  end.

#[local] Close Scope N_scope.

(** [text.strip()], on the characters of the text. *)
Fixpoint lstrip_chars (text : list string) : list string :=
  match text with
  | [] => []
  | ch :: rest => if isspace ch then lstrip_chars rest else text
  end.

Definition strip_chars (text : list string) : list string :=
  reverse (lstrip_chars (reverse (lstrip_chars text))).

Definition strip (text : string) : string := join (strip_chars (chars text)).

(** An ASCII character of the class [p]. *)
Definition ascii_char (p : ascii → bool) (ch : string) : bool :=
  match ch with
  | String c "" => is_ascii c && p c
  | _ => false
  end.

(** A character other than [x]. *)
Definition is_not (x ch : string) : bool := negb (String.eqb ch x).

End Unicode.

(** ** [DataValidator] (scraping_all_booking_with_categories.py) *)

Module DataValidator.
Import Unicode.

(** The characters that [[^\d.,]] leaves in place. *)
Definition price_char (ch : string) : bool :=
  isdecimal ch || String.eqb ch "." || String.eqb ch ",".

Definition comma_to_dot (ch : string) : string :=
  if String.eqb ch "," then "." else ch.

(** The characters of [price_clean] when [float] is called on it:
    [re.sub(r'[^\d.,]', '', price_text.replace(' ', ''))], then the two
    separator rules. *)
Definition price_clean (price_text : string) : list string :=
  let price_clean := List.filter price_char (List.filter (is_not " ") (chars price_text)) in
  if bool_decide ("," ∈ price_clean) && bool_decide ("." ∈ price_clean) then
    List.filter (is_not ",") price_clean
  else if bool_decide ("," ∈ price_clean) then
    comma_to_dot <$> price_clean
  else price_clean.

Definition required_fields : list string := ["price_per_night"; "address"; "zone"].

(** [validate_apartment_data(data)] *)
Definition validate_apartment_data (data : gmap string pyval) : bool :=
  if negb (truthy (dict_get data "title")) then false
  else if negb (existsb (λ field, truthy (dict_get data field)) required_fields) then false
  else true.

Section with_float.
(** Python's [float(text)]: [None] stands for the ValueError that both
    callers catch.  On text it raises nothing else. *)
Variable py_float : string → option float.

(** [normalize_price(price_text)] *)
Definition normalize_price (price_text : string) : option float :=
  if String.eqb price_text "" then None
  else py_float (Unicode.join (price_clean price_text)).

(** [validate_coordinates(lat, lng)] *)
Definition validate_coordinates (lat lng : string) : option float * option float :=
  match py_float lat with
  | None => (None, None)
  | Some lat_float =>
      match py_float lng with
      | None => (None, None)
      | Some lng_float =>
          if ((-90) <=? lat_float)%float && (lat_float <=? 90)%float
             && ((-180) <=? lng_float)%float && (lng_float <=? 180)%float
          then (Some lat_float, Some lng_float)
          else (None, None)
      end
  end.
End with_float.

End DataValidator.

(** ** [GeocodeService.extract_zone] *)

Module GeocodeService.

Definition names_district (part : string) : bool :=
  str_in "Arrondissement" part || str_in "District" part.

(** [extract_zone(address)].  [find] is the [for ... break] loop.
    [parts.index] cannot raise here, the part was taken from [parts]
    (lemma [find_index] below). *)
Definition extract_zone (address : option string) : string :=
  match address with
  | None => "Unknown"
  | Some "" => "Unknown"
  | Some address =>
      let parts := Unicode.strip <$> split "," address in
      let arrondissement : option string := find names_district parts in
      let quartier : option string :=
        if some_text arrondissement then
          match arrondissement ≫= (λ a, index a parts) with
          | Some (S i) => parts !! i
          | _ => None
          end
        else None in
      if some_text arrondissement && some_text quartier then
        Unicode.strip (default "" quartier) +:+ " - "
        +:+ Unicode.strip (default "" arrondissement)
      else if some_text arrondissement then
        Unicode.strip (default "" arrondissement)
      else "Unknown"
  end.

End GeocodeService.

(** ** URL discovery *)

Module Discovery.

(** [href.split('?')[0]] *)
Definition canonical (href : string) : string :=
  default "" (head (split "?" href)).

(** [if href:] on the attribute of one anchor ([None]: no attribute). *)
Definition usable (href : option string) : option string :=
  match href with
  | Some h => if String.eqb h "" then None else Some h
  | None => None
  end.

(** The testing limit of multi_thread_booking_scraper.py; [None] or
    [Some 0] disables it. *)
Definition TEST_MAX_PROPERTIES : option nat := Some 15.

(** Body of [for link in links] in [scrape_property_urls]. *)
Definition visit_link (acc : gset string * list string) (link : option string)
  : gset string * list string :=
  match usable link with
  | Some href =>
      let canonical := canonical href in
      if decide (canonical ∈ acc.1) then acc
      else ({[canonical]} ∪ acc.1, acc.2 ++ [href])
  | None => acc
  end.

(** [all_urls] after the loop over the search pages; [pages] holds the
    title links found on each of them, in document order. *)
Definition collect_urls (pages : list (list (option string))) : list string :=
  (foldl (λ acc links, foldl visit_link acc links) (∅, []) pages).2.

Definition scrape_property_urls_with (limit : option nat)
    (pages : list (list (option string))) : list string :=
  let all_urls := collect_urls pages in
  match limit with
  | Some (S n) => take (S n) all_urls
  | _ => all_urls
  end.

(** [scrape_property_urls(urls)] *)
Definition scrape_property_urls : list (list (option string)) → list string :=
  scrape_property_urls_with TEST_MAX_PROPERTIES.

(** The set comprehension of [_load_all_listings]. *)
Definition page_links (current_elements : list (option string)) : gset string :=
  list_to_set (canonical <$> omap usable current_elements).

Definition max_pages : nat := 50.

(** The [while offset < max_pages * 25] loop.  [page offset] is what the
    results page at [offset] shows, [None] when [_wait_for_page_load]
    fails.  The recursion is on [fuel]; [max_pages] rounds exhaust the
    loop condition (lemma [paginate_fuel]). *)
Fixpoint paginate (fuel offset : nat) (page : nat → option (list (option string)))
    (all_links : gset string) : gset string :=
  match fuel with
  | 0 => all_links
  | S fuel' =>
      if offset <? max_pages * 25 then
        match page offset with
        | None => all_links
        | Some current_elements =>
            let before_count := size all_links in
            let all_links := all_links ∪ page_links current_elements in
            if size all_links =? before_count then all_links
            else paginate fuel' (offset + 25) page all_links
        end
      else all_links
  end.

(** [BookingApartmentScraper._load_all_listings(city)]; [list(set)] has
    no specified order, [elements] fixes one. *)
Definition _load_all_listings (page : nat → option (list (option string))) : list string :=
  elements (paginate max_pages 0 page ∅).

End Discovery.

(** ** Work distribution *)

Module Distributor.

(** The chunking loop of [scrape_booking_properties]; [None] is the
    ZeroDivisionError of [len(property_urls) // 0]. *)
Definition url_chunks {A} (property_urls : list A) (num_threads : nat)
  : option (list (list A)) :=
  match num_threads with
  | 0 => None
  | S _ =>
      let chunk_size := length property_urls / num_threads in
      Some (foldl (λ url_chunks i,
              let start := i * chunk_size in
              let end_ := if i =? num_threads - 1 then length property_urls
                          else start + chunk_size in
              if start <? length property_urls
              then url_chunks ++ [slice property_urls start end_]
              else url_chunks)
            [] (seq 0 num_threads))
  end.

End Distributor.

(** ** The strategy cascade of [_extract_price] *)

Module Extractor.

(** What calling one strategy does: it raises, or returns an
    [Optional[str]]. *)
Inductive outcome : Type :=
| Raised
| Returned (price : option string).

Definition strategy : Type := unit → outcome.

(** [_extract_price]: the [for strategy in strategies] loop.  The list is
    a parameter; in the source it holds [_get_price_from_elements] and
    [_get_price_from_source(page_source)]. *)
Fixpoint _extract_price (py_float : string → option float)
    (strategies : list strategy) : option float :=
  match strategies with
  | [] => None
  | strategy :: rest =>
      match strategy () with
      | Returned price =>
          if some_text price
          then DataValidator.normalize_price py_float (default "" price)
          else _extract_price py_float rest
      | Raised => _extract_price py_float rest
      end
  end.

(** The extractor as the specification words it: the first result that
    is non-empty after validation. *)
Fixpoint first_validated (py_float : string → option float)
    (strategies : list strategy) : option float :=
  match strategies with
  | [] => None
  | strategy :: rest =>
      match strategy () with
      | Returned (Some raw) =>
          match DataValidator.normalize_price py_float raw with
          | Some v => Some v
          | None => first_validated py_float rest
          end
      | _ => first_validated py_float rest
      end
  end.

(** Selenium locators, [(By.X, value)]. *)
Inductive locator : Type :=
| ById (value : string)
| ByXpath (value : string)
| ByCss (value : string).

Definition review_selectors : list locator :=
  [ ByXpath "//*[@id='js--hp-gallery-scorecard']";
    ByCss "a[data-testid='see-all-reviews-link']";
    ByCss "a[href*='#tab-reviews']" ].

(** The review-link loop of [scrape_property_data]; the result is
    [clicked].  [clickable l] tells whether waiting for [l] and clicking it
    goes through; a timeout or a failed click is the exception the loop
    swallows.  Every round waits for the score card by id, as the source
    does, whatever pair [(by, selector)] the round is at. *)
Fixpoint click_reviews (clickable : locator → bool) (selectors : list locator) : bool :=
  match selectors with
  | [] => false
  | _ :: rest =>
      if clickable (ById "js--hp-gallery-scorecard") then true
      else click_reviews clickable rest
  end.

End Extractor.

(** ** The shared CSV store: [save_to_csv] *)

Module Writer.

(** A CSV file as [csv.reader] parses it: its rows, each a list of
    cells; the quoting layer is the csv module's.  A store is [None]
    until the file exists. *)
Definition csv_file : Type := list (list string).

Definition get_all_possible_fields : list string :=
  [ "property_id"; "scrape_timestamp"; "property_url"; "category";
    "general_review"; "general_review_count"; "comfort_score";
    "value_score"; "location_score"; "wifi_score";
    "avg_review_score_all"; "avg_review_score_all_count";
    "avg_review_score_families"; "avg_review_score_families_count";
    "avg_review_score_couples"; "avg_review_score_couples_count";
    "avg_review_score_solo_travelers";
    "avg_review_score_solo_travelers_count";
    "avg_review_score_business_travellers";
    "avg_review_score_business_travellers_count";
    "avg_review_score_groups_friends";
    "avg_review_score_groups_friends_count";
    "min_price"; "max_price"; "latitude"; "longitude"; "address";
    "zone"; "city"; "wifi_speed" ].

(** Keys of the batch that are not predefined fields. *)
Definition dynamic_fields (data_list : list (gmap string pyval)) : gset string :=
  filter (λ key, key ∉ get_all_possible_fields) (⋃ (dom <$> data_list)).

(** [sorted(list(dynamic_fields))]: code point order, which on UTF-8
    text is byte order. *)
Definition sorted (fields : gset string) : list string :=
  merge_sort String.le (elements fields).

(** [reader.fieldnames or []] *)
Definition existing_fieldnames (file : csv_file) : list string :=
  default [] (head file).

(** The loop that extends [all_fieldnames]. *)
Definition merge_fieldnames (existing fieldnames : list string) : list string :=
  foldl (λ all_fieldnames field,
           if decide (field ∈ all_fieldnames) then all_fieldnames
           else all_fieldnames ++ [field])
        existing fieldnames.

(** [row[field]] as the inner loop of [save_to_csv] sets it. *)
Definition row_value (item : gmap string pyval) (field : string) : pyval :=
  match item !! field with
  | Some PNone | None =>
      if String.eqb field "property_url" then
        default (PStr "") (item !! "property_url")
      else if bool_decide (field ∈ ["category"; "address"; "zone"; "city"; "wifi_speed"]) then
        PStr ""
      else if bool_decide (field ∈ ["latitude"; "longitude"]) then
        PStr ""
      else PInt 0
  | Some v => v
  end.

Section with_repr.
(** [repr] of a float, which is what the csv writer prints for it. *)
Variable float_repr : float → string.

(** The text the csv writer puts in a cell. *)
Definition cell_text (v : pyval) : string :=
  match v with
  | PNone => ""
  | PBool true => "True"
  | PBool false => "False"
  | PInt z => pretty z
  | PFloat f => float_repr f
  | PStr s => s
  end.

(** One [writer.writerow(row)]: a cell for every entry of [fieldnames]. *)
Definition write_row (fieldnames : list string) (item : gmap string pyval)
  : list string :=
  (λ field, cell_text (row_value item field)) <$> fieldnames.

(** The column list [save_to_csv] hands to [csv.DictWriter]. *)
Definition writer_fieldnames (data_list : list (gmap string pyval))
    (store : option csv_file) : list string :=
  let fieldnames := get_all_possible_fields ++ sorted (dynamic_fields data_list) in
  match store with
  | Some file =>
      match existing_fieldnames file with
      | [] => fieldnames
      | existing => merge_fieldnames existing fieldnames
      end
  | None => fieldnames
  end.

(** [save_to_csv(data_list, filename)] on the store behind [filename]. *)
Definition save_to_csv (data_list : list (gmap string pyval))
    (store : option csv_file) : option csv_file :=
  match data_list with
  | [] => store
  | _ =>
      let fieldnames := writer_fieldnames data_list store in
      let rows := write_row fieldnames <$> data_list in
      match store with
      | Some file => Some (file ++ rows)
      | None => Some (fieldnames :: rows)
      end
  end.
End with_repr.

End Writer.

(** ** The worker loop: [worker_thread]

    [scrape_single_threaded] runs the same loop, handler and [finally]
    block in the main thread, where the interrupt of the user arrives;
    [worker_thread] itself runs in the threads of the pool below. *)

Module Worker.
Import Writer.

(** What happens while one URL of the chunk is processed.  A
    KeyboardInterrupt is not an [Exception]: the inner handler lets it
    through to the handler around the loop.  It can arrive between any
    two statements of the body; [save_to_csv] is taken as one step. *)
Inductive url_event : Type :=
| Scraped (data : gmap string pyval)
    (** the body ran to its end *)
| Failed
    (** [scrape_property_data] raised an [Exception]: logged, [continue] *)
| InterruptedInScrape
    (** KeyboardInterrupt before [batch.append] *)
| InterruptedInAccept (data : gmap string pyval)
    (** KeyboardInterrupt after [batch.append], before [processed += 1] *)
| InterruptedBeforeFlush (data : gmap string pyval)
    (** KeyboardInterrupt after [processed += 1], before [save_to_csv] *)
| InterruptedAfterSave (data : gmap string pyval)
    (** KeyboardInterrupt after the flush test and, where it held, after
        [save_to_csv] returned, before [batch = []] *)
| InterruptedInSleep (data : gmap string pyval).
    (** KeyboardInterrupt in [time.sleep], after the flush test and
        [batch = []] *)

Record state : Type := State {
  batch : list (gmap string pyval);
  processed : nat;
  store : option csv_file
}.

Inductive loop_exit : Type := Exhausted | KeyboardInterrupt.

Section with_repr.
Variable float_repr : float → string.
Variables (batch_size len : nat).

(** [batch.append(data); processed += 1] *)
Definition accept (data : gmap string pyval) (w : state) : state :=
  State (batch w ++ [data]) (S (processed w)) (store w).

(** [if len(batch) >= batch_size or i == len(urls_chunk): ...] *)
Definition flush_if_due (i : nat) (w : state) : state :=
  if (batch_size <=? length (batch w)) || (i =? len) then
    State [] (processed w) (save_to_csv float_repr (batch w) (store w))
  else w.

(** The same test with [save_to_csv(batch, filename)] done and
    [batch = []] still to come. *)
Definition save_if_due (i : nat) (w : state) : state :=
  if (batch_size <=? length (batch w)) || (i =? len) then
    State (batch w) (processed w) (save_to_csv float_repr (batch w) (store w))
  else w.

(** [for i, url in enumerate(urls_chunk, 1)] *)
Fixpoint url_loop (i : nat) (events : list url_event) (w : state)
  : loop_exit * state :=
  match events with
  | [] => (Exhausted, w)
  | Scraped data :: rest => url_loop (S i) rest (flush_if_due i (accept data w))
  | Failed :: rest => url_loop (S i) rest w
  | InterruptedInScrape :: _ => (KeyboardInterrupt, w)
  | InterruptedInAccept data :: _ =>
      (KeyboardInterrupt, State (batch w ++ [data]) (processed w) (store w))
  | InterruptedBeforeFlush data :: _ => (KeyboardInterrupt, accept data w)
  | InterruptedAfterSave data :: _ => (KeyboardInterrupt, save_if_due i (accept data w))
  | InterruptedInSleep data :: _ => (KeyboardInterrupt, flush_if_due i (accept data w))
  end.

(** [if batch: save_to_csv(batch, filename)] *)
Definition flush_pending (w : state) : state :=
  match batch w with
  | [] => w
  | _ => State (batch w) (processed w) (save_to_csv float_repr (batch w) (store w))
  end.
End with_repr.

(** [worker_thread(urls_chunk, thread_id, filename, batch_size)]: the
    loop, the [except KeyboardInterrupt] handler and the [finally]
    block.  [events] has one entry per URL of the chunk; the entries
    after an interrupt stand for URLs that are never processed. *)
Definition worker_thread (float_repr : float → string) (events : list url_event)
    (store : option csv_file) (batch_size : nat) : state :=
  let '(exit, w) := url_loop float_repr batch_size (length events) 1 events
                      (State [] 0 store) in
  let w := match exit with
           | KeyboardInterrupt => flush_pending float_repr w
           | Exhausted => w
           end in
  flush_pending float_repr w.

End Worker.

(** ** The pool of workers: [scrape_booking_properties]

    The chunks are handed to [worker_thread] through
    [executor.submit]: every worker runs in a thread of the pool, all on
    the one output file.  [save_to_csv] reads and writes the file under
    [csv_lock], so each save is one step of the program, and a run of the
    pool is a sequence of steps of its threads.  A user interrupt raises
    KeyboardInterrupt in the main thread, which waits for the futures; the
    threads of the pool are not reached by it, and [executor.__exit__]
    waits for them.  A kill of the process is outside the model. *)

Module Pool.
Import Writer Worker.

(** Where a worker is in [worker_thread]. *)
Inductive stage : Type :=
| Looping
    (** in the [for] loop, before its next URL *)
| Handling
    (** a KeyboardInterrupt left the loop: the handler comes next *)
| Finishing
    (** the [finally] block comes next *)
| Terminated.

(** One worker: the events of the URLs it has not reached yet, the index
    [i] of the next one, [len(urls_chunk)] and its local variables. *)
Record thread : Type := Thread {
  todo : list url_event;
  position : nat;
  chunk_len : nat;
  at_stage : stage;
  batch_of : list (gmap string pyval);
  processed_of : nat
}.

(** The main thread has seen a KeyboardInterrupt or not; the workers; the
    output file. *)
Record pool : Type := Pool {
  interrupted : bool;
  threads : list thread;
  shared : option csv_file
}.

Inductive action : Type :=
| Runs (thread_id : nat)
    (** this worker takes its next step *)
| UserInterrupt.
    (** the user's signal: KeyboardInterrupt in the main thread *)

Section with_repr.
Variable float_repr : float → string.
Variable batch_size : nat.

(** The next step of a worker on the file as it is now: one round of the
    loop, the handler, or the [finally] block. *)
Definition thread_step (t : thread) (file : option csv_file)
  : thread * option csv_file :=
  let w := State (batch_of t) (processed_of t) file in
  match at_stage t with
  | Looping =>
      match todo t with
      | [] => (Thread [] (position t) (chunk_len t) Finishing (batch_of t) (processed_of t),
               file)
      | event :: rest =>
          let '(exit, w) :=
            url_loop float_repr batch_size (chunk_len t) (position t) [event] w in
          (Thread rest (S (position t)) (chunk_len t)
             match exit with Exhausted => Looping | KeyboardInterrupt => Handling end
             (batch w) (processed w),
           store w)
      end
  | Handling =>
      let w := flush_pending float_repr w in
      (Thread (todo t) (position t) (chunk_len t) Finishing (batch w) (processed w), store w)
  | Finishing =>
      let w := flush_pending float_repr w in
      (Thread (todo t) (position t) (chunk_len t) Terminated (batch w) (processed w), store w)
  | Terminated => (t, file)
  end.

Definition step (p : pool) (a : action) : pool :=
  match a with
  | UserInterrupt => Pool true (threads p) (shared p)
  | Runs thread_id =>
      match threads p !! thread_id with
      | Some t =>
          let '(t, file) := thread_step t (shared p) in
          Pool (interrupted p) (<[thread_id := t]> (threads p)) file
      | None => p
      end
  end.

(** The pool after the steps of a schedule. *)
Definition run (schedule : list action) (p : pool) : pool := foldl step p schedule.
End with_repr.

(** The pool as [scrape_booking_properties] starts it: one worker per
    chunk, [chunks] holding the events of the URLs of each chunk. *)
Definition start (chunks : list (list url_event)) (file : option csv_file) : pool :=
  Pool false ((λ events, Thread events 1 (length events) Looping [] 0) <$> chunks) file.

End Pool.

Import DataValidator GeocodeService Discovery Distributor Extractor Writer Worker.

(** * Further functions of the two scripts *)

(** ** [normalize_traveler_type] (multi_thread_booking_scraper.py) *)

Module TravelerType.

Definition mappings : gmap string string :=
  list_to_map
    [ ("couple", "couples");
      ("group", "groups_friends");
      ("solo_traveler", "solo_travelers");
      ("solo_traveller", "solo_travelers");
      ("group_of_friends", "groups_friends");
      ("families", "families");
      ("family", "families");
      ("business_traveller", "business_travellers");
      ("business_traveler", "business_travellers") ].

(** [s.replace(old, new)] for one-character [old] and [new]. *)
Definition replace_char (old new : ascii) (s : string) : string :=
  str_map (λ c, if Ascii.eqb c old then new else c) s.

Section with_lower.
(** Python's [str.lower]. *)
Variable lower : string → string.

(** [normalize_traveler_type(traveler_type)] *)
Definition normalize_traveler_type (traveler_type : string) : string :=
  let normalized := replace_char "-" "_" (replace_char " " "_" (lower traveler_type)) in
  default normalized (mappings !! normalized).

(** The two keys [scrape_property_data] writes for a traveler type. *)
Definition score_field (traveler_type : string) : string :=
  "avg_review_score_" +:+ normalize_traveler_type traveler_type.

Definition count_field (traveler_type : string) : string :=
  "avg_review_score_" +:+ normalize_traveler_type traveler_type +:+ "_count".
End with_lower.

End TravelerType.

(** ** [extract_prices] (multi_thread_booking_scraper.py) *)

Module Prices.
Import Unicode.

(** [re.findall(r"\d+", text)]: the maximal runs of decimal digits;
    [run] is the run being read. *)
Fixpoint decimal_runs_from (run text : list string) : list string :=
  match text with
  | [] => match run with [] => [] | _ => [join run] end
  | ch :: rest =>
      if isdecimal ch then decimal_runs_from (run ++ [ch]) rest
      else match run with
           | [] => decimal_runs_from [] rest
           | _ => join run :: decimal_runs_from [] rest
           end
  end.

Definition decimal_runs (text : list string) : list string := decimal_runs_from [] text.

(** [min(prices)] and [max(prices)] on a non-empty list. *)
Definition py_min (first : N) (others : list N) : N := foldl N.min first others.
Definition py_max (first : N) (others : list N) : N := foldl N.max first others.

Section with_int.
(** Python's [int(text)]: [None] stands for the ValueError. *)
Variable py_int : string → option N.

(** One element of the price table: [None] when nothing is appended,
    which is also what the swallowed ValueError of [int(num)] comes to. *)
Definition primary_price (el_text : string) : option N :=
  match strip_chars (chars el_text) with
  | [] => None
  | txt =>
      match List.filter isdigit txt with
      | [] => None
      | num => py_int (join num)
      end
  end.

(** One element found by a generic selector. *)
Definition generic_price (el_text : string) : option N :=
  match strip_chars (chars el_text) with
  | [] => None
  | txt =>
      match decimal_runs (List.filter (is_not ",") txt) with
      | [] => None
      | digits => py_int (join digits)
      end
  end.

(** [extract_prices(driver)].  [price_elements] holds the texts of the
    price-table spans read before the first tier ended (none when the wait
    timed out), [generic_elements] the texts found by each generic selector
    in turn, [source_matches] the groups of
    [re.findall(r"[€$£]\s?(\d{2,5})", driver.page_source)].  The result is
    [None] when [int(m)] raises in the last tier, where no handler
    catches it. *)
Definition extract_prices (price_elements : list string)
    (generic_elements : list (list string)) (source_matches : list string)
  : option (option N * option N) :=
  let prices := omap primary_price price_elements in
  let prices :=
    match prices with
    | [] => omap generic_price (concat generic_elements)
    | _ => prices
    end in
  let prices :=
    match prices with
    | [] => mapM py_int source_matches
    | _ => Some prices
    end in
  (λ prices : list N,
     match prices with
     | [] => (None, None)
     | first :: others => (Some (py_min first others), Some (py_max first others))
     end) <$> prices.
End with_int.

End Prices.

(** ** [extract_category] (multi_thread_booking_scraper.py) *)

Module Category.

(** [re.findall(r'\(([^)]+)\)', text)].  Outside a group ([None]) an
    opening parenthesis starts one; inside, everything up to the next
    closing parenthesis belongs to it, and an empty group is no match. *)
Fixpoint paren_groups_from (group : option string) (text : string) : list string :=
  match text with
  | "" => []
  | String c rest =>
      match group with
      | None =>
          if Ascii.eqb c "(" then paren_groups_from (Some "") rest
          else paren_groups_from None rest
      | Some inside =>
          if Ascii.eqb c ")" then
            if String.eqb inside "" then paren_groups_from None rest
            else inside :: paren_groups_from None rest
          else paren_groups_from (Some (inside +:+ String c "")) rest
      end
  end.

Definition paren_groups (text : string) : list string := paren_groups_from None text.

(** [extract_category(driver)]; [element_text] is the text of the
    breadcrumb element, [None] when the wait for it raises. *)
Definition extract_category (element_text : option string) : option string :=
  match element_text with
  | None => None
  | Some element_text =>
      let text := Unicode.strip element_text in
      let matches := paren_groups text in
      let category :=
        match reverse matches with
        | _ :: second :: _ => second
        | [only] => only
        | [] => text
        end in
      if String.eqb category "Guest House" then Some "Riad"
      else if String.eqb category "Condo Hotel" then Some "Apartment-Hotel"
      else Some category
  end.

End Category.

(** ** [get_location_details] (multi_thread_booking_scraper.py) *)

Module Location.

(** The answer of the geocoder: [data.get("display_name", "")] and
    [data.get("address", {})]. *)
Record nominatim : Type := Nominatim {
  display_name : string;
  address_components : gmap string string
}.

Definition is_letter (c : ascii) : bool :=
  let n := nat_of_ascii c in
  ((65 <=? n) && (n <=? 90)) || ((97 <=? n) && (n <=? 122)).

(** The characters that [latin_pattern] leaves in place: the letters
    and digits of its ranges, the white space of [\s], and four signs. *)
Definition latin_char (ch : string) : bool :=
  Unicode.ascii_char is_letter ch || Unicode.ascii_char is_digit ch || Unicode.isspace ch
  || String.eqb ch "-" || String.eqb ch "," || String.eqb ch "." || String.eqb ch "'".

(** [latin_pattern.sub("", text)], as its characters. *)
Definition latin_sub (text : string) : list string :=
  List.filter latin_char (Unicode.chars text).

(** [latin_pattern.sub("", text).strip()] *)
Definition latin_strip (text : string) : list string :=
  Unicode.strip_chars (latin_sub text).

(** [address.replace(",", " ")] on one character. *)
Definition comma_to_blank (ch : string) : string :=
  if String.eqb ch "," then " " else ch.

Definition zone_fields : list string :=
  ["neighbourhood"; "suburb"; "quarter"; "city_district"; "district"].

Definition city_fields : list string := ["city"; "town"; "municipality"; "village"].

(** The zone loop; [zone] is the value the variable holds so far. *)
Fixpoint zone_loop (fields : list string) (components : gmap string string)
    (zone : option string) : option string :=
  match fields with
  | [] => zone
  | field :: rest =>
      match components !! field with
      | Some value =>
          if String.eqb value "" then zone_loop rest components zone
          else
            let zone := Unicode.join (latin_strip value) in
            if String.eqb zone "" then zone_loop rest components (Some zone)
            else Some zone
      | None => zone_loop rest components zone
      end
  end.

(** The city loop: the first field with a non-empty value decides. *)
Fixpoint city_loop (fields : list string) (components : gmap string string)
  : option string :=
  match fields with
  | [] => None
  | field :: rest =>
      match components !! field with
      | Some value =>
          if String.eqb value "" then city_loop rest components
          else Some (Unicode.strip value)
      | None => city_loop rest components
      end
  end.

Definition optional_text (o : option string) : pyval :=
  match o with
  | Some s => PStr s
  | None => PNone
  end.

(** [get_location_details(lat, lon)] on the geocoder's answer, [None]
    when the request or its decoding raises. *)
Definition get_location_details (response : option nominatim) : gmap string pyval :=
  match response with
  | None => {[ "address" := PNone; "zone" := PNone; "city" := PNone ]}
  | Some data =>
      let address := latin_strip (display_name data) in
      let address :=
        if String.eqb (Unicode.join address) "" then address
        else comma_to_blank <$> address in
      let zone := zone_loop zone_fields (address_components data) None in
      let city := city_loop city_fields (address_components data) in
      {[ "address" := PStr (Unicode.join address); "zone" := optional_text zone;
         "city" := optional_text city ]}
  end.

End Location.

(** ** [PropertyClassifier.is_apartment] (scraping_all_booking_with_categories.py) *)

Module PropertyClassifier.

Definition EXCLUDED_KEYWORDS : list string :=
  [ "hotel"; "hôtel"; "riad"; "villa"; "palace"; "resort"; "lodge";
    "hostel"; "auberge"; "maison d'hôtes"; "guest house"; "boutique";
    "spa"; "club"; "camping"; "dar "; "atelier"; "pension" ].

Definition APARTMENT_INDICATORS : list string :=
  [ "apartment"; "appartement"; "studio"; "flat"; "appart";
    "logement"; "residence"; "résidence"; "suite"; "loft" ].

Section with_lower.
(** Python's [str.lower]. *)
Variable lower : string → string.

(** [is_apartment(title, page_source)] *)
Definition is_apartment (title page_source : string) : bool :=
  if String.eqb title "" then false
  else
    let title_lower := lower title in
    if existsb (λ keyword, str_in keyword title_lower) EXCLUDED_KEYWORDS then false
    else if existsb (λ indicator, str_in indicator title_lower) APARTMENT_INDICATORS then true
    else if negb (String.eqb page_source "") then
      let page_lower := lower page_source in
      if existsb (λ indicator, str_in indicator page_lower) APARTMENT_INDICATORS then true
      else false
    else false.
End with_lower.

End PropertyClassifier.

(** ** The CSV files of [BookingApartmentScraper] *)

Module ApartmentCsv.
Import Writer.

Record ApartmentData : Type := {
  id : Z;
  title : string;
  city : string;
  price_per_night : option float;
  address : option string;
  zone : option string;
  latitude : option float;
  longitude : option float;
  bedrooms : option Z;
  kitchens : option Z;
  surface_m2 : option Z;
  wifi : bool;
  rating : option float;
  review_count : option Z;
  amenities : list string;
  url : string;
  scraped_at : string
}.

Definition optional {A} (inj : A → pyval) (o : option A) : pyval :=
  match o with
  | Some a => inj a
  | None => PNone
  end.

(** [row = asdict(result); row['amenities'] = ', '.join(row['amenities'])]:
    the keys in field order, with their values. *)
Definition row_of (r : ApartmentData) : list (string * pyval) :=
  [ ("id", PInt (id r));
    ("title", PStr (title r));
    ("city", PStr (city r));
    ("price_per_night", optional PFloat (price_per_night r));
    ("address", optional PStr (address r));
    ("zone", optional PStr (zone r));
    ("latitude", optional PFloat (latitude r));
    ("longitude", optional PFloat (longitude r));
    ("bedrooms", optional PInt (bedrooms r));
    ("kitchens", optional PInt (kitchens r));
    ("surface_m2", optional PInt (surface_m2 r));
    ("wifi", PBool (wifi r));
    ("rating", optional PFloat (rating r));
    ("review_count", optional PInt (review_count r));
    ("amenities", PStr (String.concat ", " (amenities r)));
    ("url", PStr (url r));
    ("scraped_at", PStr (scraped_at r)) ].

Section with_repr.
Variable float_repr : float → string.

(** [fieldnames = list(asdict(results_batch[0]).keys())] *)
Definition fieldnames_of (first : ApartmentData) : list string := (row_of first).*1.

(** [writer.writerow(row)] of a [DictWriter] over [fieldnames]: the value
    under each field name, the empty text where the row has none. *)
Definition dict_row (fieldnames : list string) (row : list (string * pyval)) : list string :=
  (λ field, cell_text float_repr (default PNone (snd <$> find (λ kv, String.eqb kv.1 field) row)))
    <$> fieldnames.

(** [_save_to_csv_incremental(results_batch, filepath)]: the file is
    opened for appending, which creates it, whatever the batch holds. *)
Definition _save_to_csv_incremental (results_batch : list ApartmentData)
    (store : option csv_file) : option csv_file :=
  let file_exists := bool_decide (is_Some store) in
  let file := default [] store in
  match results_batch with
  | [] => Some file
  | first :: _ =>
      let fieldnames := fieldnames_of first in
      let header := if file_exists then [] else [fieldnames] in
      Some (file ++ header ++ (dict_row fieldnames ∘ row_of <$> results_batch))
  end.

(** [_save_to_csv(results, filepath)]: the file is opened for writing,
    which empties it. *)
Definition _save_to_csv (results : list ApartmentData)
    (store : option csv_file) : option csv_file :=
  match results with
  | [] => Some []
  | first :: _ =>
      let fieldnames := fieldnames_of first in
      Some (fieldnames :: (dict_row fieldnames ∘ row_of <$> results))
  end.
End with_repr.

End ApartmentCsv.

(** ** [BookingApartmentScraper._retry_operation] *)

Module Retry.

(** What one call of [func] does. *)
Inductive attempt_outcome (A E : Type) : Type :=
| Succeeds (value : A)
| Fails (error : E).
Arguments Succeeds {A E} value.
Arguments Fails {A E} error.

(** How [_retry_operation] ends: with a value (Python's [None] when the
    loop body never ran) or with the exception of the last attempt. *)
Inductive retry_result (A E : Type) : Type :=
| Returns (value : option A)
| Raises (error : E).
Arguments Returns {A E} value.
Arguments Raises {A E} error.

(** What the operation did besides: calls of [func] and seconds slept. *)
Record effort : Type := Effort { calls : nat; slept : nat }.

Section with_func.
Context {A E : Type}.
Variable max_retries : nat.
(** [func n]: the outcome of calling [func] at attempt [n]. *)
Variable func : nat → attempt_outcome A E.

(** [for attempt in range(self.config.max_retries)] *)
Fixpoint retry_loop (attempts : list nat) (done : effort) : retry_result A E * effort :=
  match attempts with
  | [] => (Returns None, done)
  | attempt :: rest =>
      match func attempt with
      | Succeeds value => (Returns (Some value), Effort (S (calls done)) (slept done))
      | Fails error =>
          if attempt =? max_retries - 1 then
            (Raises error, Effort (S (calls done)) (slept done))
          else
            retry_loop rest (Effort (S (calls done)) (slept done + 2 ^ attempt))
      end
  end.

(** [_retry_operation(func, *args, **kwargs)] *)
Definition _retry_operation : retry_result A E * effort :=
  retry_loop (seq 0 max_retries) (Effort 0 0).
End with_func.

End Retry.

(** ** The batches of [BookingApartmentScraper.scrape_city] *)

Module CityBatches.

(** [range(0, stop, step)]; [None] is the ValueError for a zero step. *)
Definition py_range (stop step : nat) : option (list nat) :=
  match step with
  | 0 => None
  | S _ => Some ((λ k, k * step) <$> seq 0 ((stop + step - 1) / step))
  end.

(** What the batch loop logs and processes at each round: [batch_num],
    [total_batches] and [batch]. *)
Definition listing_batches {A} (all_links : list A) (batch_size : nat)
  : option (list (nat * nat * list A)) :=
  match py_range (length all_links) batch_size with
  | None => None
  | Some starts =>
      Some ((λ i, (i / batch_size + 1,
                   (length all_links - 1) / batch_size + 1,
                   slice all_links i (i + batch_size))) <$> starts)
  end.

End CityBatches.

(** ** Coordinates: [_extract_coordinates] and the location step of
    [scrape_property_data] *)

Module Coordinates.

(** The three patterns of [_extract_coordinates], by position. *)
Definition patterns : list nat := [0; 1; 2].

Section with_search.
Variable py_float : string → option float.
(** [re.search(pattern, page_source)]: the two groups of the match of
    the pattern at this position, [None] when it has none. *)
Variable search : nat → option (string * string).

(** [BookingApartmentScraper._extract_coordinates(page_source)] *)
Fixpoint _extract_coordinates (patterns : list nat) : option float * option float :=
  match patterns with
  | [] => (None, None)
  | pattern :: rest =>
      match search pattern with
      | Some (lat, lng) => DataValidator.validate_coordinates py_float lat lng
      | None => _extract_coordinates rest
      end
  end.

(** [extract_coordinates(page_source)] of multi_thread_booking_scraper.py:
    a match whose text does not parse sends the loop on. *)
Fixpoint extract_coordinates (patterns : list nat) : option float * option float :=
  match patterns with
  | [] => (None, None)
  | pattern :: rest =>
      match search pattern with
      | Some (lat, lon) =>
          match py_float lat, py_float lon with
          | Some lat, Some lon => (Some lat, Some lon)
          | _, _ => extract_coordinates rest
          end
      | None => extract_coordinates rest
      end
  end.

(** The location step of [scrape_property_data]: [if lat and lon:] sets
    the two coordinates and then [data.update(location)].
    [geocode lat lon] is what the request to the geocoder yields. *)
Definition locate (geocode : float → float → option Location.nominatim)
    (data : gmap string pyval) : gmap string pyval :=
  match extract_coordinates [0; 1] with
  | (Some lat, Some lon) =>
      if truthy (PFloat lat) && truthy (PFloat lon) then
        Location.get_location_details (geocode lat lon)
          ∪ <["longitude" := PFloat lon]> (<["latitude" := PFloat lat]> data)
      else data
  | _ => data
  end.
End with_search.

End Coordinates.

(** ** [print_summary] (scraping_all_booking_with_categories.py) *)

Module Summary.
Import ApartmentCsv.

(** [city_counts[city] = city_counts.get(city, 0) + 1]: a dict lists its
    items in the order in which their keys were first set. *)
Fixpoint bump (city : string) (city_counts : list (string * nat)) : list (string * nat) :=
  match city_counts with
  | [] => [(city, 0 + 1)]
  | (key, count) :: rest =>
      if String.eqb key city then (key, count + 1) :: rest
      else (key, count) :: bump city rest
  end.

Definition city_counts (results : list ApartmentData) : list (string * nat) :=
  foldl (λ counts result, bump (city result) counts) [] results.

(** [sum(1 for r in results if p(r))] *)
Definition count_if (p : ApartmentData → bool) (results : list ApartmentData) : nat :=
  sum_list ((λ _, 1) <$> List.filter p results).

(** What [print_summary] logs, [None] when it only reports that there is
    no data. *)
Record summary : Type := Summarized {
  total : nat;
  breakdown : list (string * nat);
  with_price : nat;
  with_wifi : nat;
  with_bedrooms : nat;
  with_rating : nat
}.

Definition print_summary (results : list ApartmentData) : option summary :=
  match results with
  | [] => None
  | _ =>
      Some {| total := length results;
              breakdown := city_counts results;
              with_price := count_if (λ r, truthy (optional PFloat (price_per_night r))) results;
              with_wifi := count_if (λ r, truthy (PBool (wifi r))) results;
              with_bedrooms := count_if (λ r, truthy (optional PInt (bedrooms r))) results;
              with_rating := count_if (λ r, truthy (optional PFloat (rating r))) results |}
  end.

End Summary.

(** * Notions used in the statements *)

Definition infix_of (t s : string) : Prop := ∃ a b, s = a +:+ t +:+ b.

Definition titled_only : gmap string pyval :=
  {[ "title" := PStr "Studio Gueliz" ]}.

Definition titled_with_price : gmap string pyval :=
  {[ "title" := PStr "Studio Gueliz"; "price_per_night" := PFloat 450 ]}.

Definition titled_with_zone : gmap string pyval :=
  {[ "title" := PStr "Studio Gueliz"; "zone" := PStr (extract_zone None) ]}.

(** [lo <= x <= hi] on floats; false when [x] is NaN. *)
Definition between (lo hi x : float) : Prop :=
  (lo <=? x)%float = true ∧ (x <=? hi)%float = true.

(** A strategy that contributes nothing: it raises, or returns [None] or
    the empty string. *)
Definition idle (s : strategy) : Prop :=
  s () = Raised ∨ s () = Returned None ∨ s () = Returned (Some "").

Definition fails : strategy := λ _, Raised.

Definition gives (raw : string) : strategy := λ _, Returned (Some raw).

(** The state of the discovery loop: [seen] holds the canonical forms of
    [all_urls], and no two entries of [all_urls] share one. *)
Definition discovery_inv (acc : gset string * list string) : Prop :=
  acc.1 = list_to_set (canonical <$> acc.2) ∧ NoDup (canonical <$> acc.2).

(** The canonical forms shown on the first [rounds] results pages, those
    at the offsets 0, 25, ..., 25 * (rounds - 1). *)
Fixpoint links_upto (page : nat → option (list (option string))) (rounds : nat)
  : gset string :=
  match rounds with
  | 0 => ∅
  | S before => links_upto page before ∪ from_option page_links ∅ (page (25 * before))
  end.

(** The loop of [_load_all_listings] gets as far as round [round], the
    results page at offset [25 * round]: the round is one of the
    [max_pages] the loop allows, and every page before it loaded and
    showed a form that no earlier page had shown. *)
Definition reads (page : nat → option (list (option string))) (round : nat) : Prop :=
  round < max_pages ∧
  ∀ before, before < round →
    is_Some (page (25 * before)) ∧
    size (links_upto page (S before)) ≠ size (links_upto page before).

(** The premise of P1: two of the links differ and share a canonical
    form. *)
Definition has_variants (links : list (option string)) : Prop :=
  ∃ h1 h2, Some h1 ∈ links ∧ Some h2 ∈ links ∧ h1 ≠ h2 ∧ canonical h1 = canonical h2.

(** The sixteen search results used below: distinct listings, each with
    its query string. *)
Definition sixteen_listings : list (option string) :=
  (λ i : nat, Some ("https://www.booking.com/hotel/ma/" +:+ pretty i +:+ ".html?checkin=2026-01-01"))
    <$> seq 1 16.

Definition two_variants : list (option string) :=
  [ Some "https://www.booking.com/hotel/ma/riad.html?checkin=2026-01-01";
    Some "https://www.booking.com/hotel/ma/riad.html?checkin=2026-02-01" ].

(** A results page that shows one listing under two query strings and
    sixteen more listings. *)
Definition variants_and_listings : list (option string) :=
  two_variants ++ sixteen_listings.

(** Two results pages: the two variants at offset 0, the sixteen
    listings at offset 25, nothing after. *)
Definition two_pages (offset : nat) : option (list (option string)) :=
  if offset =? 0 then Some two_variants
  else if offset =? 25 then Some sixteen_listings
  else None.

(** P1 as the specification words it, for the links found and the result
    returned: one entry for the canonical form of every link, and every
    entry a scraped link that differs from its canonical form. *)
Definition dedup_as_specified (links : list (option string)) (result : list string) : Prop :=
  (∀ h, Some h ∈ links → h ≠ "" →
        length (filter (λ r, canonical r = canonical h) result) = 1) ∧
  (∀ r, r ∈ result → Some r ∈ links ∧ r ≠ canonical r).

(** Batch A with columns x, y and batch B with columns y, z. *)
Definition batch_A (x y : string) : gmap string pyval :=
  {[ "x" := PStr x; "y" := PStr y ]}.

Definition batch_B (y z : string) : gmap string pyval :=
  {[ "y" := PStr y; "z" := PStr z ]}.

(** A [float_repr] for batches that hold no float. *)
Definition no_floats : float → string := λ _, "".

(** P4 as the specification words it, for the file the two writes leave. *)
Definition schema_as_specified (file : csv_file) : Prop :=
  existing_fieldnames file = ["x"; "y"; "z"] ∧
  ∀ row, row ∈ tail file → length row = 3.


(** The records that [batch.append] receives during a run of the worker
    loop, in order. *)
Fixpoint accepted (events : list url_event) : list (gmap string pyval) :=
  match events with
  | [] => []
  | Scraped data :: rest => data :: accepted rest
  | Failed :: rest => accepted rest
  | InterruptedInScrape :: _ => []
  | InterruptedInAccept data :: _ => [data]
  | InterruptedBeforeFlush data :: _ => [data]
  | InterruptedAfterSave data :: _ => [data]
  | InterruptedInSleep data :: _ => [data]
  end.

(** A run in which no KeyboardInterrupt arrives. *)
Definition uninterrupted (events : list url_event) : Prop :=
  Forall (λ event, match event with
                   | Scraped _ | Failed => True
                   | _ => False
                   end) events.





(** The store after [save_to_csv] ran on each batch in turn. *)
Definition save_all (float_repr : float → string)
    (batches : list (list (gmap string pyval))) (store : option csv_file)
  : option csv_file :=
  foldl (λ store batch, save_to_csv float_repr batch store) store batches.

(** The two renamings at the end of [extract_category]. *)
Definition renamed (category : string) : string :=
  if String.eqb category "Guest House" then "Riad"
  else if String.eqb category "Condo Hotel" then "Apartment-Hotel"
  else category.

(** An answer of the geocoder whose neighbourhood is in Arabic script. *)
Definition casablanca : Location.nominatim :=
  Location.Nominatim "12, Rue Al Araar, Mâarif, Casablanca"
    {[ "neighbourhood" := "المعاريف"; "suburb" := "Maarif" ]}.

(** The columns of the apartment file: the fields of [ApartmentData]. *)
Definition apartment_fields : list string :=
  [ "id"; "title"; "city"; "price_per_night"; "address"; "zone"; "latitude";
    "longitude"; "bedrooms"; "kitchens"; "surface_m2"; "wifi"; "rating";
    "review_count"; "amenities"; "url"; "scraped_at" ].

(** The line written for one apartment: the texts of its fields, in
    field order, the amenities joined. *)
Definition apartment_line (float_repr : float → string)
    (r : ApartmentCsv.ApartmentData) : list string :=
  cell_text float_repr <$> (ApartmentCsv.row_of r).*2.

(** The apartment file after [_save_to_csv_incremental] ran on each batch
    in turn. *)
Definition save_incremental_all (float_repr : float → string)
    (batches : list (list ApartmentCsv.ApartmentData)) (store : option csv_file)
  : option csv_file :=
  foldl (λ store batch, ApartmentCsv._save_to_csv_incremental float_repr batch store)
        store batches.

(** One apartment, as [_scrape_single_listing] builds it. *)
Definition studio_gueliz : ApartmentCsv.ApartmentData :=
  {| ApartmentCsv.id := 1;
     ApartmentCsv.title := "Studio Gueliz";
     ApartmentCsv.city := "Marrakech";
     ApartmentCsv.price_per_night := None;
     ApartmentCsv.address := Some "Rue de la Liberte";
     ApartmentCsv.zone := Some "Unknown";
     ApartmentCsv.latitude := None;
     ApartmentCsv.longitude := None;
     ApartmentCsv.bedrooms := Some 1%Z;
     ApartmentCsv.kitchens := None;
     ApartmentCsv.surface_m2 := None;
     ApartmentCsv.wifi := true;
     ApartmentCsv.rating := None;
     ApartmentCsv.review_count := Some 12%Z;
     ApartmentCsv.amenities := ["parking"; "pool"];
     ApartmentCsv.url := "https://www.booking.com/hotel/ma/studio-gueliz.html";
     ApartmentCsv.scraped_at := "2026-01-01T10:00:00" |}.

(** The cities of a list of results in the order of their first
    appearance. *)
Definition cities_in_order (results : list ApartmentCsv.ApartmentData) : list string :=
  reverse (remove_dups (reverse (ApartmentCsv.city <$> results))).

(** How many results are of this city. *)
Definition results_of (city : string) (results : list ApartmentCsv.ApartmentData) : nat :=
  length (filter (λ r, ApartmentCsv.city r = city) results).



(** * Properties *)

(** ** Text helpers *)

Lemma str_in_head c p s : str_in (String c p) s = true → char_in c s = true.
Proof.
  induction s as [|d r IH]; simpl; [done|].
  intros [H|H]%orb_true_iff.
  - apply andb_true_iff in H as [H _]. by rewrite H.
  - rewrite (IH H). apply orb_true_r.
Qed.

Lemma find_index (p : string → bool) (l : list string) a :
  find p l = Some a → is_Some (index a l).
Proof.
  induction l as [|x l IH]; simpl; [done|].
  destruct (p x).
  - intros [= ->]. rewrite String.eqb_refl. by eexists.
  - intros H. destruct (String.eqb x a); [by eexists|].
    destruct (IH H) as [i ->]. by eexists.
Qed.

(** [p in s] is: [s] splits as [a +:+ p +:+ b]. *)

Lemma str_app_cons x a b : String x a +:+ b = String x (a +:+ b).
Proof. done. Qed.

Lemma str_app_nil_l b : "" +:+ b = b.
Proof. done. Qed.

Lemma str_app_assoc a b c : (a +:+ b) +:+ c = a +:+ b +:+ c.
Proof. induction a as [|x a IH]; [done|]. rewrite !str_app_cons. by f_equal. Qed.

Lemma str_app_nil_r a : a +:+ "" = a.
Proof. induction a as [|x a IH]; [done|]. rewrite str_app_cons. by f_equal. Qed.

Lemma starts_with_spec p s : starts_with p s = true ↔ ∃ b, s = p +:+ b.
Proof.
  revert s. induction p as [|x p IH]; intros s; simpl.
  - split; [by exists s|done].
  - destruct s as [|y s]; [split; [done|by intros [b ?]]|].
    rewrite andb_true_iff, Ascii.eqb_eq, IH. split.
    + intros [-> [b ->]]. by exists b.
    + intros [b [= -> ->]]. split; [done|by exists b].
Qed.

Lemma str_in_spec p s : str_in p s = true ↔ ∃ a b, s = a +:+ p +:+ b.
Proof.
  induction s as [|y s IH]; simpl.
  - rewrite orb_false_r, starts_with_spec. split.
    + intros [b ->]. by exists "", b.
    + intros [a [b H]]. destruct a; [by exists b|done].
  - rewrite orb_true_iff, starts_with_spec, IH. split.
    + intros [[b ->]|[a [b ->]]]; [by exists "", b|by exists (String y a), b].
    + intros [[|x a] [b H]]; [left; by exists b|].
      rewrite str_app_cons in H. injection H as -> ->. right. by exists a, b.
Qed.

Lemma infix_of_trans t u s : infix_of t u → infix_of u s → infix_of t s.
Proof.
  intros [a [b ->]] [c [d ->]]. exists (c +:+ a), (b +:+ d).
  by rewrite !str_app_assoc.
Qed.

Lemma str_in_infix p t s : infix_of t s → str_in p t = true → str_in p s = true.
Proof.
  rewrite !str_in_spec. intros Hts Hp. by apply (infix_of_trans _ t).
Qed.

Lemma split_head_prefix sep s : ∃ h t b, split sep s = h :: t ∧ s = h +:+ b.
Proof.
  induction s as [|c s (h & t & b & Hsplit & Hs)]; simpl.
  - by exists "", [], "".
  - destruct (Ascii.eqb c sep); [by exists "", (split sep s), (String c s)|].
    rewrite Hsplit. exists (String c h), t, b. split; [done|].
    rewrite str_app_cons. by f_equal.
Qed.

Lemma split_infix sep s part : part ∈ split sep s → infix_of part s.
Proof.
  revert part. induction s as [|c s IH]; simpl; intros part.
  - intros ->%list_elem_of_singleton. by exists "", "".
  - destruct (Ascii.eqb c sep).
    + intros [->|H]%elem_of_cons; [by exists "", (String c s)|].
      destruct (IH _ H) as [a [b ->]]. by exists (String c a), b.
    + destruct (split_head_prefix sep s) as (h & t & b & Hsplit & Hs).
      rewrite Hsplit in *. intros [->|H]%elem_of_cons.
      * exists "", b. rewrite str_app_nil_l, str_app_cons. by f_equal.
      * destruct (IH part) as [a [b' ->]]; [by right|]. by exists (String c a), b'.
Qed.

Lemma char_in_cons c d s : char_in c (String d s) = Ascii.eqb c d || char_in c s.
Proof. done. Qed.

Lemma char_in_app c a b : char_in c (a +:+ b) = char_in c a || char_in c b.
Proof.
  induction a as [|x a IH]; [done|].
  by rewrite str_app_cons, !char_in_cons, IH, orb_assoc.
Qed.

Lemma join_cons x l : Unicode.join (x :: l) = x +:+ Unicode.join l.
Proof. unfold Unicode.join. destruct l; simpl; [by rewrite str_app_nil_r|done]. Qed.

Lemma join_app l k : Unicode.join (l ++ k) = Unicode.join l +:+ Unicode.join k.
Proof.
  induction l as [|x l IH]; [by rewrite str_app_nil_l|].
  by rewrite <- app_comm_cons, !join_cons, IH, str_app_assoc.
Qed.

Lemma chars_join text : Unicode.join (Unicode.chars text) = text.
Proof.
  induction text as [|c text IH]; [done|]. simpl.
  destruct (Unicode.chars text) as [|[|d h] t].
  - by rewrite <- IH.
  - rewrite join_cons, str_app_cons, str_app_nil_l. by rewrite IH.
  - destruct (_ && _).
    + rewrite join_cons, !str_app_cons. rewrite join_cons, !str_app_cons in IH.
      by rewrite IH.
    + rewrite join_cons, str_app_cons, str_app_nil_l. by rewrite IH.
Qed.

Lemma lstrip_chars_split text :
  ∃ spaces, text = spaces ++ Unicode.lstrip_chars text ∧
            Forall (λ ch, Unicode.isspace ch = true) spaces.
Proof.
  induction text as [|ch text (spaces & Htext & Hspaces)]; [by exists []|]. simpl.
  destruct (Unicode.isspace ch) eqn:Hch; [|by exists []].
  exists (ch :: spaces). split; [by rewrite <- app_comm_cons, <- Htext|by constructor].
Qed.

Lemma strip_chars_split text :
  ∃ before after,
    text = before ++ Unicode.strip_chars text ++ after ∧
    Forall (λ ch, Unicode.isspace ch = true) before ∧
    Forall (λ ch, Unicode.isspace ch = true) after.
Proof.
  unfold Unicode.strip_chars.
  destruct (lstrip_chars_split text) as (before & Htext & Hbefore).
  destruct (lstrip_chars_split (reverse (Unicode.lstrip_chars text)))
    as (after & Hrev & Hafter).
  exists before, (reverse after). split; [|split; [done|by apply Forall_reverse]].
  rewrite <- reverse_app, <- Hrev, reverse_involutive. exact Htext.
Qed.

(** Stripping takes away white space at the two ends. *)
Lemma strip_parts text :
  ∃ before after,
    text = Unicode.join before +:+ Unicode.strip text +:+ Unicode.join after ∧
    Forall (λ ch, Unicode.isspace ch = true) before ∧
    Forall (λ ch, Unicode.isspace ch = true) after.
Proof.
  destruct (strip_chars_split (Unicode.chars text)) as (before & after & Htext & Hb & Ha).
  exists before, after. split; [|done].
  unfold Unicode.strip. rewrite <- !join_app, <- Htext. by rewrite chars_join.
Qed.

Lemma strip_infix text : infix_of (Unicode.strip text) text.
Proof. destruct (strip_parts text) as (before & after & Htext & _). by eexists _, _. Qed.

Lemma spaces_without c spaces :
  (∀ ch, Unicode.isspace ch = true → char_in c ch = false) →
  Forall (λ ch, Unicode.isspace ch = true) spaces →
  char_in c (Unicode.join spaces) = false.
Proof.
  intros Hc. induction 1 as [|ch spaces Hch _ IH]; [done|].
  by rewrite join_cons, char_in_app, (Hc ch Hch), IH.
Qed.

Lemma strip_nonempty c text :
  (∀ ch, Unicode.isspace ch = true → char_in c ch = false) →
  char_in c text = true → Unicode.strip text ≠ "".
Proof.
  intros Hc Hin Hempty.
  destruct (strip_parts text) as (before & after & Htext & Hbefore & Hafter).
  rewrite Hempty in Htext. rewrite Htext, !char_in_app in Hin.
  rewrite (spaces_without c before), (spaces_without c after) in Hin; done.
Qed.

Lemma whitespace_no_capital ch :
  Unicode.isspace ch = true → char_in "A" ch = false ∧ char_in "D" ch = false.
Proof.
  intros Hch%bool_decide_eq_true.
  assert (forallb (λ ch, negb (char_in "A" ch) && negb (char_in "D" ch))
            Unicode.whitespace = true) as Hall by by vm_compute.
  rewrite forallb_forall in Hall. apply list_elem_of_In, Hall in Hch.
  apply andb_true_iff in Hch as [H1%negb_true_iff H2%negb_true_iff]. done.
Qed.

Lemma names_district_strip part : names_district part = true → Unicode.strip part ≠ "".
Proof.
  intros [H|H]%orb_true_iff; apply str_in_head in H.
  - apply (strip_nonempty "A"); [|done]. intros ch Hch. by apply whitespace_no_capital.
  - apply (strip_nonempty "D"); [|done]. intros ch Hch. by apply whitespace_no_capital.
Qed.

(** ** The quality gate and the zone *)

Lemma validate_apartment_data_true (data : gmap string pyval) :
  validate_apartment_data data = true ↔
  truthy (dict_get data "title") = true ∧
  (truthy (dict_get data "price_per_night") = true ∨
   truthy (dict_get data "address") = true ∨
   truthy (dict_get data "zone") = true).
Proof.
  unfold validate_apartment_data, required_fields. simpl.
  destruct (truthy (dict_get data "title")),
    (truthy (dict_get data "price_per_night")),
    (truthy (dict_get data "address")),
    (truthy (dict_get data "zone")); simpl; intuition congruence.
Qed.

(** C5: the gate accepts exactly the records with a non-empty title and at
    least one non-empty field among price_per_night, address and zone,
    where non-empty is Python truth ([None], the empty string and a zero
    number are empty).  A record with a title and all three empty is
    rejected; one with a title and exactly one of the three is accepted. *)
Theorem quality_gate (data : gmap string pyval) :
  (validate_apartment_data data = true ↔
   truthy (dict_get data "title") = true ∧
   ∃ field, field ∈ ["price_per_night"; "address"; "zone"] ∧
            truthy (dict_get data field) = true) ∧
  (truthy (dict_get data "title") = true →
   (∀ field, field ∈ ["price_per_night"; "address"; "zone"] →
             truthy (dict_get data field) = false) →
   validate_apartment_data data = false) ∧
  (truthy (dict_get data "title") = true →
   ∀ field, field ∈ ["price_per_night"; "address"; "zone"] →
     truthy (dict_get data field) = true →
     (∀ other, other ∈ ["price_per_night"; "address"; "zone"] → other ≠ field →
               truthy (dict_get data other) = false) →
     validate_apartment_data data = true).
Proof.
  assert (Hiff : validate_apartment_data data = true ↔
    truthy (dict_get data "title") = true ∧
    ∃ field, field ∈ ["price_per_night"; "address"; "zone"] ∧
             truthy (dict_get data field) = true).
  { rewrite validate_apartment_data_true. split.
    - intros [Ht [H|[H|H]]]; (split; [done|]); eexists; (split; [|exact H]);
        set_solver.
    - intros [Ht (field & Hin & H)]. split; [done|].
      repeat (apply elem_of_cons in Hin as [->|Hin]; [tauto|]).
      by apply elem_of_nil in Hin. }
  split; [exact Hiff|]. split.
  - intros Ht Hnone. apply not_true_is_false. intros Hv.
    apply Hiff in Hv as [_ (field & Hin & H)]. rewrite (Hnone _ Hin) in H. done.
  - intros Ht field Hin H _. apply Hiff. eauto.
Qed.

Lemma quality_gate_witness :
  validate_apartment_data titled_only = false ∧
  validate_apartment_data titled_with_price = true.
Proof.
  split.
  - apply (proj1 (proj2 (quality_gate titled_only))); [reflexivity|].
    intros field Hin.
    repeat (apply elem_of_cons in Hin as [->|Hin]; [reflexivity|]).
    by apply elem_of_nil in Hin.
  - apply (proj2 (proj2 (quality_gate titled_with_price)) eq_refl "price_per_night").
    + set_solver.
    + reflexivity.
    + intros other Hin Hne.
      repeat (apply elem_of_cons in Hin as [->|Hin]; [done || reflexivity|]).
      by apply elem_of_nil in Hin.
Defined.

Lemma extract_zone_found c r a :
  find names_district (Unicode.strip <$> split "," (String c r)) = Some a →
  extract_zone (Some (String c r)) = Unicode.strip a ∨
  ∃ q, extract_zone (Some (String c r))
       = Unicode.strip q +:+ " - " +:+ Unicode.strip a.
Proof.
  intros Hf. unfold extract_zone. rewrite Hf.
  apply find_some in Hf as [_ Ha].
  assert (some_text (Some a) = true) as ->.
  { simpl. destruct a; [done|reflexivity]. }
  simpl. destruct (index a _) as [[|i]|]; simpl; [by left| |by left].
  destruct (_ !! i) as [q|]; simpl; [|by left].
  destruct (negb (String.eqb q "")); simpl; [right; by exists q|by left].
Qed.

Lemma extract_zone_not_found c r :
  find names_district (Unicode.strip <$> split "," (String c r)) = None →
  extract_zone (Some (String c r)) = "Unknown".
Proof. intros Hf. unfold extract_zone. by rewrite Hf. Qed.

Lemma extract_zone_nonempty address : extract_zone address ≠ "".
Proof.
  destruct address as [[|c r]|]; [done| |done].
  destruct (find names_district (Unicode.strip <$> split "," (String c r))) as [a|] eqn:Hf.
  - pose proof Hf as [_ Ha]%find_some.
    destruct (extract_zone_found _ _ _ Hf) as [->|[q ->]].
    + by apply names_district_strip.
    + by destruct (Unicode.strip q).
  - by rewrite (extract_zone_not_found _ _ Hf).
Qed.

(** C10: [extract_zone] returns a non-empty string on every input, and
    'Unknown' for [None], for the empty string and for a string in which
    neither 'Arrondissement' nor 'District' occurs; so a record with a
    non-empty title whose zone is the output of [extract_zone] passes
    [validate_apartment_data], whatever its price and address are. *)
Theorem extract_zone_opens_gate :
  (∀ address, extract_zone address ≠ "") ∧
  (∀ address,
     address = None ∨ address = Some "" ∨
     (∃ s, address = Some s ∧ str_in "Arrondissement" s = false ∧
           str_in "District" s = false) →
     extract_zone address = "Unknown") ∧
  (∀ address (data : gmap string pyval),
     truthy (dict_get data "title") = true →
     data !! "zone" = Some (PStr (extract_zone address)) →
     validate_apartment_data data = true).
Proof.
  split; [exact extract_zone_nonempty|]. split.
  - intros address [->|[->|(s & -> & HA & HD)]]; [done..|].
    destruct s as [|c r]; [done|]. apply extract_zone_not_found.
    destruct (find _ _) as [a|] eqn:Hf; [exfalso|done].
    apply find_some in Hf as [Hin Ha]. apply list_elem_of_In in Hin.
    apply list_elem_of_fmap in Hin as (part & -> & Hpart).
    assert (infix_of (Unicode.strip part) (String c r)) as Hinf.
    { apply (infix_of_trans _ part); [apply strip_infix|by apply split_infix in Hpart]. }
    apply orb_true_iff in Ha as [Ha|Ha]; apply (str_in_infix _ _ _ Hinf) in Ha; congruence.
  - intros address data Ht Hz. apply validate_apartment_data_true. split; [done|].
    right; right. unfold dict_get. rewrite Hz. simpl.
    pose proof (extract_zone_nonempty address). by destruct (extract_zone address).
Qed.

Lemma extract_zone_opens_gate_witness :
  extract_zone (Some "Rue de la Liberte, Marrakech") = "Unknown" ∧
  validate_apartment_data titled_with_zone = true.
Proof.
  split.
  - apply (proj1 (proj2 extract_zone_opens_gate)). right; right.
    eexists. split; [reflexivity|]. split; reflexivity.
  - apply (proj2 (proj2 extract_zone_opens_gate) None); reflexivity.
Defined.

(** ** Coordinates and prices *)

Lemma validate_coordinates_accepts py_float lat lng a b :
  validate_coordinates py_float lat lng = (Some a, Some b) ↔
  py_float lat = Some a ∧ py_float lng = Some b ∧
  between (-90) 90 a ∧ between (-180) 180 b.
Proof.
  unfold validate_coordinates, between. split.
  - destruct (py_float lat) as [x|]; [|discriminate].
    destruct (py_float lng) as [y|]; [|discriminate].
    destruct (_ && _) eqn:E; [|discriminate]. intros [= <- <-].
    apply andb_true_iff in E as [[[? ?]%andb_true_iff ?]%andb_true_iff ?].
    done.
  - intros (-> & -> & [-> ->] & [-> ->]). done.
Qed.

Lemma validate_coordinates_total py_float lat lng :
  validate_coordinates py_float lat lng = (None, None) ∨
  ∃ a b, validate_coordinates py_float lat lng = (Some a, Some b).
Proof.
  unfold validate_coordinates.
  destruct (py_float lat) as [x|]; [|by left].
  destruct (py_float lng) as [y|]; [|by left].
  destruct (_ && _); [right; by exists x, y|by left].
Qed.

(** C6: [validate_coordinates] returns the parsed pair exactly when both
    texts parse and the latitude lies in [-90, 90] and the longitude in
    [-180, 180]; in every other case it returns [(None, None)], so the two
    components are never one known and one unknown.  (91, 10) is
    discarded, (45.5, -73.6) is returned as it is. *)
Theorem validate_coordinates_spec :
  (∀ py_float lat lng a b,
     validate_coordinates py_float lat lng = (Some a, Some b) ↔
     py_float lat = Some a ∧ py_float lng = Some b ∧
     between (-90) 90 a ∧ between (-180) 180 b) ∧
  (∀ py_float lat lng,
     validate_coordinates py_float lat lng = (None, None) ↔
     ¬ ∃ a b, py_float lat = Some a ∧ py_float lng = Some b ∧
              between (-90) 90 a ∧ between (-180) 180 b) ∧
  validate_coordinates float_of_text "91" "10" = (None, None) ∧
  validate_coordinates float_of_text "45.5" "-73.6"
    = (Some 45.5%float, Some (-73.6)%float).
Proof.
  split; [exact validate_coordinates_accepts|]. split; [|by vm_compute].
  intros py_float lat lng. split.
  - intros Hnone (a & b & H). apply validate_coordinates_accepts in H.
    rewrite Hnone in H. discriminate H.
  - intros Hno. destruct (validate_coordinates_total py_float lat lng) as [H|(a & b & H)];
      [done|]. destruct Hno. exists a, b. by apply validate_coordinates_accepts.
Qed.

Lemma Forall_list_filter {A} (P : A → Prop) (p : A → bool) (l : list A) :
  Forall P l → Forall (λ x, P x ∧ p x = true) (List.filter p l).
Proof.
  induction 1 as [|x l Hx _ IH]; simpl; [constructor|].
  destruct (p x) eqn:Hp; [by constructor|done].
Qed.

Lemma list_filter_filter {A} (p q : A → bool) (l : list A) :
  (∀ x, q x = true → p x = true) →
  List.filter q (List.filter p l) = List.filter q l.
Proof.
  intros Hpq. induction l as [|x l IH]; simpl; [done|].
  destruct (p x) eqn:Hp; simpl.
  - destruct (q x); by rewrite IH.
  - destruct (q x) eqn:Hq; [|done]. apply Hpq in Hq. congruence.
Qed.

Lemma price_char_cases ch :
  price_char ch = true → (Unicode.isdecimal ch = true ∨ ch = ".") ∨ ch = ",".
Proof.
  unfold price_char. intros [[H|H]%orb_true_iff|H]%orb_true_iff.
  - by left; left.
  - apply String.eqb_eq in H. by left; right.
  - apply String.eqb_eq in H. by right.
Qed.

Lemma is_not_spec x ch : Unicode.is_not x ch = true ↔ ch ≠ x.
Proof. unfold Unicode.is_not. destruct (String.eqb_spec ch x); naive_solver. Qed.

Lemma price_clean_digits_dots text :
  Forall (λ ch, Unicode.isdecimal ch = true ∨ ch = ".") (price_clean text).
Proof.
  unfold price_clean.
  set (kept := List.filter price_char _).
  assert (Hkept : Forall (λ ch, price_char ch = true) kept).
  { eapply Forall_impl; [apply (Forall_list_filter (λ _, True)); by apply Forall_true|].
    by intros ch [_ ?]. }
  destruct (bool_decide_reflect ("," ∈ kept)) as [Hcomma|Hcomma]; simpl.
  - destruct (bool_decide ("." ∈ kept)).
    + eapply Forall_impl; [by apply Forall_list_filter|].
      intros ch [Hch Hne%is_not_spec]. simpl in Hch.
      by destruct (price_char_cases ch Hch).
    + apply Forall_fmap. eapply Forall_impl; [exact Hkept|].
      intros ch Hch. simpl. unfold comma_to_dot.
      destruct (String.eqb_spec ch ","); [by right|].
      by destruct (price_char_cases ch Hch).
  - apply Forall_forall. intros ch Hin.
    rewrite Forall_forall in Hkept.
    destruct (price_char_cases ch (Hkept ch Hin)) as [?| ->]; done.
Qed.

Lemma price_kept (text : list string) :
  List.filter price_char (List.filter (Unicode.is_not " ") text) = List.filter price_char text.
Proof.
  apply list_filter_filter. intros ch Hch. apply is_not_spec. by intros ->.
Qed.

(** C7: [normalize_price] keeps only digits, '.' and ','; with both
    separators present it drops every ',', with ',' alone it turns ','
    into '.'; the text handed to [float] then holds decimal digits and
    '.' only, and a text that does not parse gives [None], no exception.
    The digits are those of [\d], the decimal digits of every script.
    "1,234.56" and "1234,56" both give 1234.56, "abc" gives [None]. *)
Theorem normalize_price_spec :
  (∀ py_float text,
     normalize_price py_float text =
       if String.eqb text "" then None
       else
         let kept := List.filter price_char (Unicode.chars text) in
         py_float
           (Unicode.join
              (if bool_decide ("," ∈ kept) && bool_decide ("." ∈ kept)
               then List.filter (Unicode.is_not ",") kept
               else if bool_decide ("," ∈ kept) then comma_to_dot <$> kept
               else kept))) ∧
  (∀ text, Forall (λ ch, Unicode.isdecimal ch = true ∨ ch = ".") (price_clean text)) ∧
  (∀ py_float text,
     normalize_price py_float text = None ↔
     text = "" ∨ py_float (Unicode.join (price_clean text)) = None) ∧
  normalize_price float_of_text "1,234.56" = Some 1234.56%float ∧
  normalize_price float_of_text "1234,56" = Some 1234.56%float ∧
  normalize_price float_of_text "abc" = None ∧
  price_clean "١٢٣ MAD" = ["١"; "٢"; "٣"].
Proof.
  split; [|split; [exact price_clean_digits_dots|split; [|by vm_compute]]].
  - intros py_float text. unfold normalize_price, price_clean.
    by rewrite price_kept.
  - intros py_float text. unfold normalize_price.
    destruct (String.eqb_spec text ""); [naive_solver|]. naive_solver.
Qed.

(** ** Work distribution *)

Lemma foldl_append_all {A B} (started : B → bool) (chunk : B → A) (l : list B) acc :
  (∀ i, i ∈ l → started i = true) →
  foldl (λ acc i, if started i then acc ++ [chunk i] else acc) acc l
  = acc ++ (chunk <$> l).
Proof.
  revert acc. induction l as [|i l IH]; intros acc Hall; simpl.
  - by rewrite app_nil_r.
  - rewrite Hall by left. rewrite IH by (intros; apply Hall; by right).
    by rewrite <- app_assoc.
Qed.

Lemma concat_even_chunks {A} (l : list A) (chunk_size k : nat) :
  concat ((λ i, slice l (i * chunk_size) (i * chunk_size + chunk_size)) <$> seq 0 k)
  = take (k * chunk_size) l.
Proof.
  induction k as [|k IH]; [by rewrite take_0|].
  rewrite seq_S, fmap_app, concat_app, IH. simpl. rewrite app_nil_r.
  unfold slice. replace (k * chunk_size + chunk_size - k * chunk_size) with chunk_size by lia.
  rewrite take_take_drop. f_equal. lia.
Qed.

Lemma seq_last n : 1 ≤ n → seq 0 n = seq 0 (n - 1) ++ [n - 1].
Proof.
  intros Hn. destruct n as [|k]; [lia|]. rewrite seq_S. simpl. by rewrite Nat.sub_0_r.
Qed.

Lemma chunk_start_in_range m n i :
  1 ≤ n ≤ m → i < n → i * (m / n) < m.
Proof.
  intros Hn Hi.
  assert (n * (m / n) ≤ m) by apply Nat.Div0.mul_div_le.
  assert (1 ≤ m / n) by (apply Nat.div_le_lower_bound; lia).
  nia.
Qed.

Lemma url_chunks_started {A} (property_urls : list A) (num_threads : nat) :
  1 ≤ num_threads ≤ length property_urls →
  url_chunks property_urls num_threads =
  Some ((λ i, slice property_urls (i * (length property_urls / num_threads))
                (if i =? num_threads - 1 then length property_urls
                 else i * (length property_urls / num_threads)
                      + length property_urls / num_threads))
        <$> seq 0 num_threads).
Proof.
  intros Hn. unfold url_chunks. destruct num_threads as [|n'] eqn:En; [lia|].
  rewrite <- En in *. f_equal.
  rewrite (foldl_append_all
    (λ i, i * (length property_urls / num_threads) <? length property_urls)); [done|].
  intros i [_ Hi]%elem_of_seq. apply Nat.ltb_lt. apply chunk_start_in_range; lia.
Qed.

(** C2: for [1 ≤ n ≤ m] the chunking loop yields [min n m] chunks whose
    concatenation is the input list; chunk [i] is the run of positions
    from [i * (m div n)], so the chunks are disjoint and omit nothing;
    workers [0 .. n-2] get [m div n] URLs each and worker [n-1] the
    remaining [m - (n-1) * (m div n)]. *)
Theorem url_chunks_partition {A} (property_urls : list A) (num_threads : nat) :
  1 ≤ num_threads ≤ length property_urls →
  let m := length property_urls in
  let n := num_threads in
  ∃ chunks,
    url_chunks property_urls num_threads = Some chunks ∧
    concat chunks = property_urls ∧
    length chunks = n `min` m ∧
    (∀ i, i < n →
       chunks !! i = Some (slice property_urls (i * (m / n))
                             (if i =? n - 1 then m else (i + 1) * (m / n)))) ∧
    (∀ i, i < n - 1 → length <$> chunks !! i = Some (m / n)) ∧
    length <$> chunks !! (n - 1) = Some (m - (n - 1) * (m / n)).
Proof.
  intros Hn m n. eexists. split; [by apply url_chunks_started|].
  fold m n. set (cs := m / n).
  assert (Hlast : (n - 1) * cs < m) by (apply chunk_start_in_range; lia).
  assert (Hlookup : ∀ i, i < n →
    ((λ i, slice property_urls (i * cs) (if i =? n - 1 then m else i * cs + cs))
       <$> seq 0 n) !! i
    = Some (slice property_urls (i * cs) (if i =? n - 1 then m else (i + 1) * cs))).
  { intros i Hi. rewrite list_lookup_fmap, lookup_seq_lt by done. simpl.
    do 2 f_equal. destruct (i =? n - 1); lia. }
  split; [|split; [|split; [|split]]].
  - rewrite (seq_last n), fmap_app, concat_app by lia. simpl.
    rewrite Nat.eqb_refl, app_nil_r.
    erewrite (list_fmap_ext _ (λ i, slice property_urls (i * cs) (i * cs + cs))).
    + rewrite concat_even_chunks. unfold slice.
      rewrite (take_ge (drop _ _)) by (rewrite length_drop; fold m; lia).
      apply take_drop.
    + intros i x [-> Hi]%lookup_seq. simpl.
      destruct (Nat.eqb_spec i (n - 1)); [lia|done].
  - rewrite length_fmap, length_seq. lia.
  - exact Hlookup.
  - intros i Hi. rewrite Hlookup by lia. simpl. f_equal. unfold slice.
    destruct (Nat.eqb_spec i (n - 1)); [lia|].
    assert ((i + 1) * cs ≤ (n - 1) * cs) by nia.
    rewrite length_take, length_drop. fold m. lia.
  - rewrite Hlookup by lia. simpl. f_equal. unfold slice.
    rewrite Nat.eqb_refl, length_take, length_drop. fold m. lia.
Qed.

Lemma url_chunks_partition_witness :
  ∃ chunks,
    url_chunks [1; 2; 3; 4; 5; 6; 7] 3 = Some chunks ∧
    concat chunks = [1; 2; 3; 4; 5; 6; 7] ∧
    length chunks = 3 ∧
    (∀ i, i < 3 →
       chunks !! i = Some (slice [1; 2; 3; 4; 5; 6; 7] (i * 2)
                             (if i =? 2 then 7 else (i + 1) * 2))) ∧
    (∀ i, i < 2 → length <$> chunks !! i = Some 2) ∧
    length <$> chunks !! 2 = Some 3.
Proof.
  apply (url_chunks_partition [1; 2; 3; 4; 5; 6; 7] 3). simpl. lia.
Defined.

(** ** The strategy cascade *)

Lemma extract_price_skips_idle py_float pre rest :
  Forall idle pre →
  _extract_price py_float (pre ++ rest) = _extract_price py_float rest.
Proof.
  induction 1 as [|s pre Hs _ IH]; [done|]. simpl.
  destruct Hs as [->|[->| ->]]; exact IH.
Qed.

(** The extractor does not wait for a result that validates: a first
    strategy whose text does not parse settles the outcome as unknown,
    although the second one would have given 5. *)
Lemma extract_price_counterexample :
  _extract_price float_of_text [gives "1.2.3"; gives "5"]
  ≠ first_validated float_of_text [gives "1.2.3"; gives "5"].
Proof. by vm_compute. Qed.

(** C4, amended: the strategies are tried in the given order and the
    first one that returns a non-empty text decides: the result is
    [normalize_price] of that text, [None] included, and the strategies
    after it have no influence on it.  When every strategy raises or
    returns nothing the result is [None].  With A failing, B giving 5 and C
    giving 9 the result is 5. *)
Theorem extract_price_first_nonempty :
  (∀ py_float pre s raw post,
     Forall idle pre → s () = Returned (Some raw) → raw ≠ "" →
     _extract_price py_float (pre ++ s :: post) = normalize_price py_float raw) ∧
  (∀ py_float strategies,
     Forall idle strategies → _extract_price py_float strategies = None) ∧
  _extract_price float_of_text [fails; gives "5"; gives "9"] = Some 5%float.
Proof.
  split; [|split; [|by vm_compute]].
  - intros py_float pre s raw post Hpre Hs Hraw.
    rewrite extract_price_skips_idle by done. simpl. rewrite Hs. simpl.
    by destruct raw.
  - intros py_float strategies Hall.
    rewrite <- (app_nil_r strategies). by rewrite extract_price_skips_idle.
Qed.

Lemma idle_fails_empty : Forall idle [fails; gives ""].
Proof. constructor; [by left|]. constructor; [by right; right|]. constructor. Qed.

Lemma extract_price_first_nonempty_witness :
  _extract_price float_of_text ([fails; gives ""] ++ gives "1 200 MAD" :: [gives "9"])
    = normalize_price float_of_text "1 200 MAD" ∧
  _extract_price float_of_text [fails; gives ""] = None.
Proof.
  split.
  - apply (proj1 extract_price_first_nonempty).
    + exact idle_fails_empty.
    + reflexivity.
    + discriminate.
  - apply (proj1 (proj2 extract_price_first_nonempty)). exact idle_fails_empty.
Defined.

(** The review-link loop tries one locator only: the listed selectors
    play no part in its result. *)
Remark click_reviews_one_locator clickable :
  click_reviews clickable review_selectors
  = clickable (ById "js--hp-gallery-scorecard").
Proof. simpl. by destruct (clickable _). Qed.

(** ** URL discovery *)

Lemma usable_Some link h : usable link = Some h ↔ link = Some h ∧ h ≠ "".
Proof.
  unfold usable. destruct link as [x|]; [|naive_solver].
  destruct (String.eqb_spec x ""); naive_solver.
Qed.

Lemma split_head_clean sep s :
  ∃ h t, split sep s = h :: t ∧ char_in sep h = false.
Proof.
  induction s as [|c s (h & t & Hs & Hh)]; simpl; [by exists "", []|].
  destruct (Ascii.eqb c sep) eqn:E; [by exists "", (split sep s)|].
  rewrite Hs. exists (String c h), t. split; [done|]. simpl.
  rewrite Hh, orb_false_r. rewrite <- E. apply Ascii.eqb_sym.
Qed.

Lemma canonical_no_query href : char_in "?" (canonical href) = false.
Proof.
  unfold canonical. destruct (split_head_clean "?" href) as (h & t & -> & Hh). done.
Qed.

Lemma canonical_differs href : char_in "?" href = true → href ≠ canonical href.
Proof. intros Hq Heq. rewrite Heq, canonical_no_query in Hq. done. Qed.

Lemma visit_link_inv acc link :
  discovery_inv acc → discovery_inv (visit_link acc link).
Proof.
  intros [Hseen Hnd]. unfold visit_link.
  destruct (usable link) as [href|]; [|done].
  destruct (decide _) as [|Hnew]; [done|]. split; simpl.
  - rewrite fmap_app, list_to_set_app_L, <- Hseen. simpl. set_solver.
  - rewrite fmap_app. apply NoDup_app. split; [done|]. split; [|apply NoDup_singleton].
    intros c Hc ->%list_elem_of_singleton. apply Hnew. rewrite Hseen. set_solver.
Qed.

Lemma visit_links_spec links acc :
  discovery_inv acc →
  let acc' := foldl visit_link acc links in
  discovery_inv acc' ∧
  (∃ new, acc'.2 = acc.2 ++ new ∧ ∀ r, r ∈ new → Some r ∈ links ∧ r ≠ "") ∧
  acc.1 ⊆ acc'.1 ∧
  (∀ h, Some h ∈ links → h ≠ "" → canonical h ∈ acc'.1).
Proof.
  revert acc. induction links as [|link links IH]; intros acc Hinv; simpl.
  - split; [done|]. split; [exists []; split; [by rewrite app_nil_r|]; by intros r ?%elem_of_nil|].
    split; [done|]. by intros h ?%elem_of_nil.
  - destruct (IH (visit_link acc link) (visit_link_inv _ _ Hinv))
      as (Hinv' & (new & Hnew & Hfrom) & Hsub & Hcov).
    assert (Hstep : (∃ one, (visit_link acc link).2 = acc.2 ++ one ∧
                            ∀ r, r ∈ one → link = Some r ∧ r ≠ "") ∧
                    acc.1 ⊆ (visit_link acc link).1 ∧
                    (∀ h, link = Some h → h ≠ "" → canonical h ∈ (visit_link acc link).1)).
    { unfold visit_link. destruct (usable link) as [href|] eqn:Hu.
      - apply usable_Some in Hu as [-> Hne]. destruct (decide _) as [Hin|Hnin]; simpl.
        + split; [exists []; split; [by rewrite app_nil_r|]; by intros r ?%elem_of_nil|].
          split; [done|]. by intros h [= <-] _.
        + split; [exists [href]; split; [done|]; by intros r ->%list_elem_of_singleton|].
          split; [set_solver|]. intros h [= <-] _. set_solver.
      - split; [exists []; split; [by rewrite app_nil_r|]; by intros r ?%elem_of_nil|].
        split; [done|]. intros h -> Hne.
        assert (usable (Some h) = Some h) as Hu' by by apply usable_Some.
        rewrite Hu' in Hu. done. }
    destruct Hstep as ((one & Hone & Hfrom1) & Hsub1 & Hcov1).
    split; [done|]. split; [|split].
    + exists (one ++ new). split; [by rewrite Hnew, Hone, app_assoc|].
      intros r [Hr|Hr]%elem_of_app.
      * destruct (Hfrom1 r Hr) as [-> ?]. split; [by left|done].
      * destruct (Hfrom r Hr). split; [by right|done].
    + set_solver.
    + intros h [<-|Hin]%elem_of_cons Hne; [|by apply Hcov].
      apply Hsub. by apply Hcov1.
Qed.

Lemma foldl_concat {A B} (f : A → B → A) (a : A) (ls : list (list B)) :
  foldl (λ acc l, foldl f acc l) a ls = foldl f a (concat ls).
Proof.
  revert a. induction ls as [|l ls IH]; intros a; simpl; [done|].
  by rewrite IH, foldl_app.
Qed.

Lemma collect_urls_spec pages :
  NoDup (canonical <$> collect_urls pages) ∧
  (∀ r, r ∈ collect_urls pages → Some r ∈ concat pages ∧ r ≠ "") ∧
  (∀ h, Some h ∈ concat pages → h ≠ "" →
        ∃ r, r ∈ collect_urls pages ∧ canonical r = canonical h).
Proof.
  unfold collect_urls. rewrite foldl_concat.
  destruct (visit_links_spec (concat pages) (∅, [])) as ([Hseen Hnd] & (new & Hnew & Hfrom) & _ & Hcov).
  { split; [done|constructor]. }
  simpl in *. split; [done|]. split.
  - intros r Hr. rewrite Hnew in Hr. by apply Hfrom.
  - intros h Hin Hne. specialize (Hcov h Hin Hne). rewrite Hseen in Hcov.
    apply elem_of_list_to_set, list_elem_of_fmap in Hcov as (r & Hc & Hr). eauto.
Qed.

Lemma elem_of_page_links r current_elements :
  r ∈ page_links current_elements ↔
  ∃ h, Some h ∈ current_elements ∧ h ≠ "" ∧ r = canonical h.
Proof.
  unfold page_links. rewrite elem_of_list_to_set, list_elem_of_fmap. split.
  - intros (h & -> & (link & Hin & [-> Hne]%usable_Some)%list_elem_of_omap). eauto.
  - intros (h & Hin & Hne & ->). exists h. split; [done|].
    apply list_elem_of_omap. exists (Some h). split; [done|]. by apply usable_Some.
Qed.

Lemma paginate_step fuel offset page all_links :
  paginate (S fuel) offset page all_links =
  if offset <? max_pages * 25 then
    match page offset with
    | None => all_links
    | Some current_elements =>
        if size (all_links ∪ page_links current_elements) =? size all_links
        then all_links ∪ page_links current_elements
        else paginate fuel (offset + 25) page (all_links ∪ page_links current_elements)
    end
  else all_links.
Proof. done. Qed.

Lemma paginate_grows fuel offset page all_links :
  all_links ⊆ paginate fuel offset page all_links.
Proof.
  revert offset all_links. induction fuel as [|fuel IH]; intros offset all_links;
    simpl; [done|].
  destruct (offset <? _); [|done].
  destruct (page offset) as [current_elements|]; [|done].
  destruct (_ =? _); [set_solver|].
  etrans; [|apply IH]. set_solver.
Qed.

(** The loop from round [round] on, when it got there: what it returns
    holds the forms of every page it reads, and nothing else. *)
Lemma paginate_reads fuel round page :
  round + fuel = max_pages →
  (∀ before, before < round →
     is_Some (page (25 * before)) ∧
     size (links_upto page (S before)) ≠ size (links_upto page before)) →
  let result := paginate fuel (25 * round) page (links_upto page round) in
  (∀ k current_elements,
     round ≤ k → reads page k → page (25 * k) = Some current_elements →
     page_links current_elements ⊆ result) ∧
  (∀ r, r ∈ result →
     r ∈ links_upto page round ∨
     ∃ k current_elements,
       reads page k ∧ page (25 * k) = Some current_elements ∧
       r ∈ page_links current_elements).
Proof.
  revert round. induction fuel as [|fuel IH]; intros round Hfuel Hbefore result.
  - subst result. simpl. split; [|by left].
    intros k current_elements Hk [Hmax _]. lia.
  - subst result. rewrite paginate_step.
    destruct (Nat.ltb_spec (25 * round) (max_pages * 25)) as [_|Hge];
      [|unfold max_pages in *; lia].
    destruct (page (25 * round)) as [current_elements|] eqn:Hpage.
    + assert (links_upto page round ∪ page_links current_elements
              = links_upto page (S round)) as Hnext.
      { change (links_upto page (S round))
          with (links_upto page round ∪ from_option page_links ∅ (page (25 * round))).
        by rewrite Hpage. }
      assert (reads page round) as Hreads by (split; [lia|done]).
      rewrite Hnext.
      destruct (Nat.eqb_spec (size (links_upto page (S round)))
                  (size (links_upto page round))) as [Hsame|Hgrew].
      * split.
        -- intros k els Hk [Hmax Hall] Hels.
           destruct (decide (k = round)) as [->|Hne].
           ++ rewrite Hpage in Hels. injection Hels as <-. rewrite <- Hnext. set_solver.
           ++ destruct (Hall round ltac:(lia)) as [_ Hgrew]. done.
        -- intros r Hr. rewrite <- Hnext in Hr.
           apply elem_of_union in Hr as [Hr|Hr]; [by left|].
           right. by exists round, current_elements.
      * replace (25 * round + 25) with (25 * S round) by lia.
        destruct (IH (S round)) as [Hcov Hfrom]; [lia| |].
        { intros before Hlt. destruct (decide (before = round)) as [->|Hne].
          - rewrite Hpage. split; [by eexists|done].
          - apply Hbefore. lia. }
        split.
        -- intros k els Hk Hreadsk Hels.
           destruct (decide (k = round)) as [->|Hne].
           ++ rewrite Hpage in Hels. injection Hels as <-.
              etrans; [|apply paginate_grows]. rewrite <- Hnext. set_solver.
           ++ apply (Hcov k els); [lia|done..].
        -- intros r Hr. destruct (Hfrom r Hr) as [Hin|?]; [|by right].
           rewrite <- Hnext in Hin.
           apply elem_of_union in Hin as [Hin|Hin]; [by left|].
           right. by exists round, current_elements.
    + split; [|by left].
      intros k els Hk [Hmax Hall] Hels.
      destruct (decide (k = round)) as [->|Hne]; [congruence|].
      destruct (Hall round ltac:(lia)) as [[? Hsome] _]. congruence.
Qed.

(** [max_pages] rounds are all the loop condition allows: more fuel
    changes nothing. *)
Lemma paginate_fuel_enough fuel extra offset page all_links :
  max_pages * 25 ≤ offset + 25 * fuel →
  paginate (fuel + extra) offset page all_links = paginate fuel offset page all_links.
Proof.
  revert offset all_links. induction fuel as [|fuel IH]; intros offset all_links Hle.
  - destruct extra as [|extra]; [done|].
    change (0 + S extra) with (S extra). rewrite paginate_step.
    destruct (Nat.ltb_spec offset (max_pages * 25)); [lia|done].
  - change (S fuel + extra) with (S (fuel + extra)). rewrite !paginate_step.
    destruct (offset <? _); [|done].
    destruct (page offset); [|done]. destruct (_ =? _); [done|]. apply IH. lia.
Qed.

Lemma paginate_fuel extra page :
  paginate (max_pages + extra) 0 page ∅ = paginate max_pages 0 page ∅.
Proof. apply paginate_fuel_enough. unfold max_pages. lia. Qed.

(** Two ways the code departs from it, each on links that hold two
    variants of one listing: [_load_all_listings] returns the stripped
    form, which is none of the scraped links, and [scrape_property_urls]
    keeps no entry for the last listings of a long results page. *)
Lemma dedup_counterexample :
  has_variants two_variants ∧
  ¬ dedup_as_specified two_variants (_load_all_listings (λ _, Some two_variants)) ∧
  has_variants variants_and_listings ∧
  ¬ dedup_as_specified variants_and_listings
      (scrape_property_urls [variants_and_listings]).
Proof.
  assert (has_variants two_variants) as Htwo.
  { exists "https://www.booking.com/hotel/ma/riad.html?checkin=2026-01-01",
           "https://www.booking.com/hotel/ma/riad.html?checkin=2026-02-01".
    split; [by left|]. split; [right; by left|]. split; [discriminate|reflexivity]. }
  split; [done|]. split; [|split].
  - intros [_ H].
    assert (_load_all_listings (λ _, Some two_variants)
            = ["https://www.booking.com/hotel/ma/riad.html"]) as Hr by by vm_compute.
    destruct (H "https://www.booking.com/hotel/ma/riad.html") as [_ Hne].
    { rewrite Hr. by left. }
    by apply Hne.
  - destruct Htwo as (h1 & h2 & H1 & H2 & Hne & Heq). exists h1, h2.
    unfold variants_and_listings. rewrite !elem_of_app. auto.
  - intros [H _].
    assert (Some "https://www.booking.com/hotel/ma/16.html?checkin=2026-01-01"
            ∈ variants_and_listings) as Hin.
    { apply elem_of_app. right. apply list_elem_of_fmap. exists 16.
      split; [by vm_compute|]. apply elem_of_seq. lia. }
    specialize (H _ Hin ltac:(discriminate)).
    assert (length (filter (λ r, canonical r
                = canonical "https://www.booking.com/hotel/ma/16.html?checkin=2026-01-01")
              (scrape_property_urls [variants_and_listings])) = 0) as H0 by by vm_compute.
    rewrite H0 in H. discriminate H.
Qed.

Lemma NoDup_fmap_take {A B} (f : A → B) (l : list A) k :
  NoDup (f <$> l) → NoDup (f <$> take k l).
Proof.
  intros Hnd. rewrite fmap_take. eapply sublist_NoDup; [exact Hnd|apply sublist_take].
Qed.

(** C3, amended.  [scrape_property_urls] (any setting of the testing
    limit): no two entries share a canonical form, every entry is a link
    as it was scraped, so it differs from its canonical form whenever it
    carries a query string, and every canonical form found has its entry
    unless the limit cut the list, which then holds its first [limit]
    entries.  [_load_all_listings]: the entries are distinct and carry no
    query string, and they are exactly the canonical forms of the links
    on the results pages the loop reads: each of these forms is an entry,
    and every entry is one of them. *)
Theorem discovery_dedup :
  (∀ limit pages,
     let result := scrape_property_urls_with limit pages in
     NoDup (canonical <$> result) ∧
     (∀ r, r ∈ result →
           Some r ∈ concat pages ∧ r ≠ "" ∧ (char_in "?" r = true → r ≠ canonical r)) ∧
     result = match limit with
              | Some (S n) => take (S n) (collect_urls pages)
              | _ => collect_urls pages
              end ∧
     ((limit = None ∨ limit = Some 0 ∨
       ∃ n, limit = Some n ∧ length (collect_urls pages) ≤ n) →
      ∀ h, Some h ∈ concat pages → h ≠ "" →
           ∃ r, r ∈ result ∧ canonical r = canonical h)) ∧
  scrape_property_urls = scrape_property_urls_with (Some 15) ∧
  (∀ page,
     let result := _load_all_listings page in
     NoDup result ∧
     (∀ r, r ∈ result →
           char_in "?" r = false ∧
           ∃ round current_elements h,
             reads page round ∧ page (25 * round) = Some current_elements ∧
             Some h ∈ current_elements ∧ h ≠ "" ∧ r = canonical h) ∧
     (∀ round current_elements h,
        reads page round → page (25 * round) = Some current_elements →
        Some h ∈ current_elements → h ≠ "" →
        canonical h ∈ result)).
Proof.
  split; [|split; [done|]].
  - intros limit pages result.
    destruct (collect_urls_spec pages) as (Hnd & Hfrom & Hcov).
    assert (Hres : result = match limit with
                            | Some (S n) => take (S n) (collect_urls pages)
                            | _ => collect_urls pages
                            end) by done.
    assert (Hsub : ∀ r, r ∈ result → r ∈ collect_urls pages).
    { intros r. rewrite Hres. destruct limit as [[|n]|]; [done| |done].
      apply (subseteq_take (S n)). }
    split; [|split; [|split; [done|]]].
    + rewrite Hres. destruct limit as [[|n]|]; [done| |done]. by apply NoDup_fmap_take.
    + intros r Hr%Hsub. destruct (Hfrom r Hr). split; [done|]. split; [done|].
      apply canonical_differs.
    + intros Hfull h Hin Hne. rewrite Hres.
      destruct Hfull as [->|[->|(n & -> & Hlen)]]; [by apply Hcov..|].
      destruct n as [|n]; [by apply Hcov|]. rewrite take_ge by done. by apply Hcov.
  - intros page result. unfold result, _load_all_listings.
    destruct (paginate_reads max_pages 0 page) as [Hcov Hfrom];
      [done|intros before ?; lia|].
    change (25 * 0) with 0 in Hcov, Hfrom.
    change (links_upto page 0) with (∅ : gset string) in Hcov, Hfrom.
    split; [apply NoDup_elements|]. split.
    + intros r Hr%elem_of_elements.
      destruct (Hfrom r Hr) as [Hin|(k & els & Hreads & Hels & Hin)];
        [by apply not_elem_of_empty in Hin|].
      apply elem_of_page_links in Hin as (h & ? & ? & ->).
      split; [apply canonical_no_query|]. by exists k, els, h.
    + intros round current_elements h Hreads Hpage Hin Hne. apply elem_of_elements.
      apply (Hcov round current_elements); [lia|done..|].
      apply elem_of_page_links. eauto.
Qed.

Lemma discovery_dedup_witness :
  (∃ r, r ∈ scrape_property_urls_with None [two_variants] ∧
        canonical r = canonical "https://www.booking.com/hotel/ma/riad.html?checkin=2026-02-01") ∧
  canonical "https://www.booking.com/hotel/ma/16.html?checkin=2026-01-01"
    ∈ _load_all_listings two_pages.
Proof.
  split.
  - apply (proj2 (proj2 (proj2 (proj1 discovery_dedup None [two_variants])))).
    + by left.
    + simpl. right. by left.
    + discriminate.
  - apply (proj2 (proj2 (proj2 (proj2 discovery_dedup) two_pages)) 1 sixteen_listings).
    + split; [unfold max_pages; lia|]. intros before Hlt.
      replace before with 0 by lia. split; [by eexists|by vm_compute].
    + reflexivity.
    + apply list_elem_of_fmap. exists 16. split; [by vm_compute|].
      apply elem_of_seq. lia.
    + discriminate.
Defined.

(** ** The CSV store *)

Lemma merge_fieldnames_spec existing fieldnames :
  ∃ new,
    merge_fieldnames existing fieldnames = existing ++ new ∧
    NoDup new ∧
    (∀ f, f ∈ new → f ∈ fieldnames ∧ f ∉ existing) ∧
    (∀ f, f ∈ fieldnames → f ∈ existing ++ new).
Proof.
  unfold merge_fieldnames. revert existing.
  induction fieldnames as [|field fieldnames IH]; intros existing; simpl.
  - exists []. rewrite app_nil_r. split; [done|]. split; [constructor|].
    split; by intros f ?%elem_of_nil.
  - destruct (decide (field ∈ existing)) as [Hin|Hnin].
    + destruct (IH existing) as (new & -> & Hnd & Hnew & Hcov). exists new.
      split; [done|]. split; [done|]. split.
      * intros f Hf. destruct (Hnew f Hf). split; [by right|done].
      * intros f [->|Hf]%elem_of_cons; [apply elem_of_app; by left|by apply Hcov].
    + destruct (IH (existing ++ [field])) as (new & -> & Hnd & Hnew & Hcov).
      exists (field :: new). split; [by rewrite <- app_assoc|]. split; [|split].
      * constructor; [|done]. intros Hf. destruct (Hnew _ Hf) as [_ Hno].
        apply Hno. apply elem_of_app. right. by left.
      * intros f [->|Hf]%elem_of_cons; [split; [by left|done]|].
        destruct (Hnew f Hf) as [? Hno]. split; [by right|].
        intros ?. apply Hno. apply elem_of_app. by left.
      * intros f Hf.
        replace (existing ++ field :: new) with ((existing ++ [field]) ++ new)
          by by rewrite <- app_assoc.
        apply elem_of_cons in Hf as [->|Hf]; [|by apply Hcov].
        apply elem_of_app. left. apply elem_of_app. right. by left.
Qed.

Lemma merge_fieldnames_known existing fieldnames :
  (∀ f, f ∈ fieldnames → f ∈ existing) →
  merge_fieldnames existing fieldnames = existing.
Proof.
  unfold merge_fieldnames. induction fieldnames as [|field fieldnames IH]; intros Hall;
    simpl; [done|].
  rewrite decide_True by (apply Hall; by left).
  apply IH. intros f Hf. apply Hall. by right.
Qed.

Lemma length_write_row float_repr fieldnames item :
  length (write_row float_repr fieldnames item) = length fieldnames.
Proof. unfold write_row. by rewrite length_fmap. Qed.

Lemma save_to_csv_fresh float_repr data :
  data ≠ [] →
  save_to_csv float_repr data None =
  Some ((get_all_possible_fields ++ sorted (dynamic_fields data))
        :: (write_row float_repr (get_all_possible_fields ++ sorted (dynamic_fields data))
              <$> data)).
Proof. by destruct data. Qed.

Lemma save_to_csv_append float_repr data file :
  data ≠ [] →
  save_to_csv float_repr data (Some file) =
  Some (file ++ (write_row float_repr (writer_fieldnames data (Some file)) <$> data)).
Proof. by destruct data. Qed.

Lemma writer_fieldnames_header data header rows :
  header ≠ [] →
  writer_fieldnames data (Some (header :: rows)) =
  merge_fieldnames header (get_all_possible_fields ++ sorted (dynamic_fields data)).
Proof. by destruct header. Qed.

Lemma elem_of_sorted f (fields : gset string) : f ∈ sorted fields ↔ f ∈ fields.
Proof. unfold sorted. by rewrite merge_sort_Permutation, elem_of_elements. Qed.

(** The header that is persisted is the one written at creation: the
    predefined fields, then x and y.  It is not x, y, z, and z never
    reaches it. *)
Lemma schema_counterexample :
  ∃ file,
    save_to_csv no_floats [batch_B "3" "4"] (save_to_csv no_floats [batch_A "1" "2"] None)
      = Some file ∧
    ¬ schema_as_specified file ∧
    "z" ∉ existing_fieldnames file.
Proof.
  eexists. split; [by vm_compute|]. split.
  - intros [H _]. by vm_compute in H.
  - intros H. vm_compute in H.
    repeat (apply elem_of_cons in H as [H|H]; [discriminate H|]).
    by apply elem_of_nil in H.
Qed.

(** C1, amended.  A write to a fresh store creates the header: the
    predefined fields followed by the other keys of the batch, sorted.  A
    write to a store that has a header leaves that header as it is; the
    rows of the batch are laid out over the header followed by the fields
    the header lacks, each once, and every row written has one cell per
    column of that layout.  So after batch A (x, y) and batch B (y, z) the
    persisted header is the predefined fields, x, y; the row of A has
    cells for these, the row of B has cells for these and for z. *)
Theorem save_to_csv_schema (float_repr : float → string) :
  (∀ data, data ≠ [] →
     let columns := get_all_possible_fields ++ sorted (dynamic_fields data) in
     save_to_csv float_repr data None
     = Some (columns :: (write_row float_repr columns <$> data))) ∧
  (∀ data header rows, data ≠ [] → header ≠ [] →
     ∃ new,
       save_to_csv float_repr data (Some (header :: rows))
       = Some (header :: rows ++ (write_row float_repr (header ++ new) <$> data)) ∧
       NoDup new ∧
       (∀ f, f ∈ new ↔
             (f ∈ get_all_possible_fields ∨ f ∈ dynamic_fields data) ∧ f ∉ header)) ∧
  (∀ columns item i f,
     length (write_row float_repr columns item) = length columns ∧
     (columns !! i = Some f →
      write_row float_repr columns item !! i
      = Some (cell_text float_repr (row_value item f)))) ∧
  (∀ a1 a2 b1 b2,
     save_to_csv float_repr [batch_B b1 b2] (save_to_csv float_repr [batch_A a1 a2] None)
     = Some [ get_all_possible_fields ++ ["x"; "y"];
              write_row float_repr get_all_possible_fields ∅ ++ [a1; a2];
              write_row float_repr get_all_possible_fields ∅ ++ ["0"; b1; b2] ]).
Proof.
  split; [|split; [|split]].
  - intros data Hdata columns. by apply save_to_csv_fresh.
  - intros data header rows Hdata Hheader.
    destruct (merge_fieldnames_spec header
                (get_all_possible_fields ++ sorted (dynamic_fields data)))
      as (new & Hmerge & Hnd & Hnew & Hcov).
    exists new. split; [|split; [done|]].
    + rewrite save_to_csv_append, writer_fieldnames_header, Hmerge by done. done.
    + intros f. split.
      * intros Hf. destruct (Hnew f Hf) as [Hin Hno]. split; [|done].
        apply elem_of_app in Hin as [?|?%elem_of_sorted]; auto.
      * intros [Hin Hno].
        assert (f ∈ header ++ new) as [?|?]%elem_of_app; [|done..].
        apply Hcov. apply elem_of_app. rewrite elem_of_sorted. tauto.
  - intros columns item i f. split; [apply length_write_row|].
    intros Hf. unfold write_row. by rewrite list_lookup_fmap, Hf.
  - intros a1 a2 b1 b2. by vm_compute.
Qed.

Lemma save_to_csv_schema_witness :
  (∃ new,
     save_to_csv no_floats [batch_B "3" "4"] (Some [["y"]; ["2"]])
     = Some (["y"] :: [["2"]] ++ (write_row no_floats (["y"] ++ new) <$> [batch_B "3" "4"])) ∧
     NoDup new ∧
     (∀ f, f ∈ new ↔
           (f ∈ get_all_possible_fields ∨ f ∈ dynamic_fields [batch_B "3" "4"]) ∧
           f ∉ ["y"])) ∧
  write_row no_floats ["y"; "z"] (batch_B "3" "4") !! 1
  = Some (cell_text no_floats (row_value (batch_B "3" "4") "z")).
Proof.
  split.
  - apply (proj1 (proj2 (save_to_csv_schema no_floats))); discriminate.
  - apply (proj1 (proj2 (proj2 (save_to_csv_schema no_floats)))
             ["y"; "z"] (batch_B "3" "4") 1 "z").
    reflexivity.
Defined.

(** ** The worker and the interrupt *)

Lemma fieldnames_nonempty (fields : gset string) :
  get_all_possible_fields ++ sorted fields ≠ [].
Proof. done. Qed.






Lemma elem_of_writer_fieldnames data store key :
  (key ∈ get_all_possible_fields ∨ key ∈ dynamic_fields data) →
  key ∈ writer_fieldnames data store.
Proof.
  intros Hkey.
  assert (key ∈ get_all_possible_fields ++ sorted (dynamic_fields data)) as Hfn.
  { apply elem_of_app. rewrite elem_of_sorted. tauto. }
  unfold writer_fieldnames. destruct store as [file|]; [|done].
  destruct (existing_fieldnames file) as [|h existing] eqn:He; [done|].
  destruct (merge_fieldnames_spec (h :: existing)
              (get_all_possible_fields ++ sorted (dynamic_fields data)))
    as (new & -> & _ & _ & Hcov). by apply Hcov.
Qed.

Lemma elem_of_dynamic_fields data item key :
  item ∈ data → is_Some (item !! key) → key ∉ get_all_possible_fields →
  key ∈ dynamic_fields data.
Proof.
  intros Hitem Hkey Hno. unfold dynamic_fields.
  apply elem_of_filter. split; [done|].
  apply elem_of_union_list. exists (dom item). split; [|by apply elem_of_dom].
  apply list_elem_of_fmap. by exists item.
Qed.








Lemma batch_flush_pending float_repr w : batch (flush_pending float_repr w) = batch w.
Proof. unfold flush_pending. by destruct (batch w) eqn:Hb. Qed.




(** *** The pool *)



























(** * Further properties *)

Import TravelerType Prices Category Location PropertyClassifier Retry
  CityBatches Coordinates.

(** ** Chunks for any number of workers *)

Lemma chunk_start_below m n i : 1 ≤ n → 1 ≤ m → i < n → i * (m / n) < m.
Proof.
  intros Hn Hm Hi.
  assert (n * (m / n) ≤ m) by apply Nat.Div0.mul_div_le.
  destruct (m / n) as [|cs]; [lia|nia].
Qed.

Lemma url_chunks_all {A} (property_urls : list A) (num_threads : nat) :
  1 ≤ num_threads → 1 ≤ length property_urls →
  url_chunks property_urls num_threads =
  Some ((λ i, slice property_urls (i * (length property_urls / num_threads))
                (if i =? num_threads - 1 then length property_urls
                 else i * (length property_urls / num_threads)
                      + length property_urls / num_threads))
        <$> seq 0 num_threads).
Proof.
  intros Hn Hm. unfold url_chunks. destruct num_threads as [|n'] eqn:En; [lia|].
  rewrite <- En in *. f_equal.
  rewrite (foldl_append_all
    (λ i, i * (length property_urls / num_threads) <? length property_urls)); [done|].
  intros i [_ Hi]%elem_of_seq. apply Nat.ltb_lt. apply chunk_start_below; lia.
Qed.

Lemma foldl_append_none {A B} (started : B → bool) (chunk : B → A) (l : list B) acc :
  (∀ i, i ∈ l → started i = false) →
  foldl (λ acc i, if started i then acc ++ [chunk i] else acc) acc l = acc.
Proof.
  revert acc. induction l as [|i l IH]; intros acc Hall; simpl; [done|].
  rewrite Hall by left. apply IH. intros; apply Hall; by right.
Qed.

Lemma fmap_all_nil {A B} (f : B → list A) (l : list B) :
  (∀ i, i ∈ l → f i = []) → f <$> l = replicate (length l) [].
Proof.
  induction l as [|i l IH]; intros Hall; simpl; [done|].
  rewrite Hall by left. f_equal. apply IH. intros; apply Hall; by right.
Qed.

(** Whatever the number of URLs and of workers, the chunks put end to end
    are the URL list: nothing is left out and nothing is given twice.  As
    soon as there is one URL there is one chunk per worker. *)
Theorem url_chunks_complete {A} (property_urls : list A) (num_threads : nat) :
  1 ≤ num_threads →
  ∃ chunks,
    url_chunks property_urls num_threads = Some chunks ∧
    concat chunks = property_urls ∧
    length chunks = if length property_urls =? 0 then 0 else num_threads.
Proof.
  intros Hn. destruct property_urls as [|url urls].
  - exists []. unfold url_chunks. destruct num_threads as [|n']; [lia|].
    split; [|done]. f_equal.
    apply (foldl_append_none
      (λ i, i * (length (@nil A) / S n') <? length (@nil A))).
    intros i _. apply Nat.ltb_ge. simpl. lia.
  - set (l := url :: urls). set (m := length l). set (n := num_threads).
    assert (1 ≤ m) as Hm by (unfold m; simpl; lia).
    eexists. split; [by apply url_chunks_all|]. fold m n. set (cs := m / n).
    split; [|by rewrite length_fmap, length_seq].
    assert ((n - 1) * cs < m) by (apply chunk_start_below; lia).
    rewrite (seq_last n), fmap_app, concat_app by lia. simpl.
    rewrite Nat.eqb_refl, app_nil_r.
    erewrite (list_fmap_ext _ (λ i, slice l (i * cs) (i * cs + cs))).
    + rewrite concat_even_chunks. unfold slice.
      rewrite (take_ge (drop _ _)) by (rewrite length_drop; fold m; lia).
      apply take_drop.
    + intros i x [-> Hi]%lookup_seq. simpl.
      destruct (Nat.eqb_spec i (n - 1)); [lia|done].
Qed.

Lemma url_chunks_complete_witness :
  ∃ chunks,
    url_chunks [1; 2] 3 = Some chunks ∧ concat chunks = [1; 2] ∧
    length chunks = 3.
Proof. apply (url_chunks_complete [1; 2] 3). lia. Defined.

(** With fewer URLs than workers, every worker but the last gets an empty
    chunk and the last one gets the whole list; a worker started on an
    empty chunk leaves the store as it found it. *)
Theorem url_chunks_fewer_urls {A} (property_urls : list A) (num_threads : nat) :
  1 ≤ length property_urls < num_threads →
  url_chunks property_urls num_threads
    = Some (replicate (num_threads - 1) [] ++ [property_urls]) ∧
  ∀ float_repr store batch_size,
    Worker.store (worker_thread float_repr [] store batch_size) = store.
Proof.
  intros [Hm Hn]. split; [|done].
  rewrite url_chunks_all by lia. f_equal.
  rewrite (Nat.div_small (length property_urls)) by lia.
  rewrite (seq_last num_threads), fmap_app by lia. simpl.
  rewrite Nat.eqb_refl. f_equal.
  - rewrite fmap_all_nil; [by rewrite length_seq|].
    intros i [_ Hi]%elem_of_seq. unfold slice.
    destruct (Nat.eqb_spec i (num_threads - 1)); [lia|].
    by rewrite Nat.mul_0_r.
  - unfold slice. rewrite Nat.mul_0_r, Nat.sub_0_r. simpl. by rewrite take_ge.
Qed.

Lemma url_chunks_fewer_urls_witness :
  url_chunks [1; 2] 4 = Some (replicate 3 [] ++ [[1; 2]]) ∧
  ∀ float_repr store batch_size,
    Worker.store (worker_thread float_repr [] store batch_size) = store.
Proof. apply (url_chunks_fewer_urls [1; 2] 4). simpl. lia. Defined.

(** ** The store under repeated writes *)

Lemma save_all_cons float_repr batch batches store :
  save_all float_repr (batch :: batches) store
  = save_all float_repr batches (save_to_csv float_repr batch store).
Proof. done. Qed.

Lemma save_all_snoc float_repr batches batch store :
  save_all float_repr (batches ++ [batch]) store
  = save_to_csv float_repr batch (save_all float_repr batches store).
Proof. unfold save_all. by rewrite foldl_app. Qed.



(** No value of a record is dropped by the writer: every key of every
    record of the batch is a column of the layout, and the row of the
    record carries, at that column, the text of the value it has under
    the key. *)
Theorem save_to_csv_keeps_values float_repr data store item key value :
  item ∈ data → item !! key = Some value → value ≠ PNone →
  ∃ i,
    writer_fieldnames data store !! i = Some key ∧
    write_row float_repr (writer_fieldnames data store) item !! i
    = Some (cell_text float_repr value).
Proof.
  intros Hitem Hkey Hvalue.
  assert (key ∈ writer_fieldnames data store) as Hin.
  { apply elem_of_writer_fieldnames.
    destruct (decide (key ∈ get_all_possible_fields)); [by left|right].
    by apply (elem_of_dynamic_fields _ item). }
  apply list_elem_of_lookup in Hin as [i Hi]. exists i. split; [done|].
  unfold write_row. rewrite list_lookup_fmap, Hi. simpl. do 2 f_equal.
  unfold row_value. rewrite Hkey. by destruct value.
Qed.

Lemma save_to_csv_keeps_values_witness :
  ∃ i,
    writer_fieldnames [batch_B "3" "4"] (Some [["y"]]) !! i = Some "z" ∧
    write_row no_floats (writer_fieldnames [batch_B "3" "4"] (Some [["y"]]))
      (batch_B "3" "4") !! i
    = Some (cell_text no_floats (PStr "4")).
Proof.
  apply (save_to_csv_keeps_values no_floats [batch_B "3" "4"] (Some [["y"]])
           (batch_B "3" "4") "z" (PStr "4")).
  - by left.
  - reflexivity.
  - discriminate.
Defined.

Lemma writer_fieldnames_covered data header rows :
  header ≠ [] →
  (∀ f, f ∈ get_all_possible_fields → f ∈ header) →
  (∀ f, f ∈ dynamic_fields data → f ∈ header) →
  writer_fieldnames data (Some (header :: rows)) = header.
Proof.
  intros Hheader Hbase Hdyn. rewrite writer_fieldnames_header by done.
  apply merge_fieldnames_known.
  intros f [?|?%elem_of_sorted]%elem_of_app; auto.
Qed.

(** The file stays a table as long as later batches bring no new key:
    after a first batch on a fresh store and any further batches whose
    keys are predefined fields or keys of the first batch, every line of
    the file has as many cells as the header. *)
Theorem save_all_rectangular float_repr first batches :
  first ≠ [] →
  (∀ batch item key, batch ∈ batches → item ∈ batch → is_Some (item !! key) →
     key ∈ get_all_possible_fields ∨ key ∈ dynamic_fields first) →
  ∃ rows,
    save_all float_repr (first :: batches) None
      = Some ((get_all_possible_fields ++ sorted (dynamic_fields first)) :: rows) ∧
    Forall (λ row, length row
                   = length (get_all_possible_fields ++ sorted (dynamic_fields first)))
           rows.
Proof.
  intros Hfirst Hkeys. rewrite save_all_cons, save_to_csv_fresh by done.
  set (header := get_all_possible_fields ++ sorted (dynamic_fields first)).
  assert (Hgen : ∀ rows0,
    Forall (λ row, length row = length header) rows0 →
    ∃ rows, save_all float_repr batches (Some (header :: rows0)) = Some (header :: rows) ∧
            Forall (λ row, length row = length header) rows).
  { induction batches as [|batch batches IH]; intros rows0 Hrows0; [by exists rows0|].
    rewrite save_all_cons. destruct batch as [|item batch].
    { apply IH; [|done]. intros b i k Hb. apply Hkeys. by right. }
    rewrite save_to_csv_append by done.
    rewrite writer_fieldnames_covered.
    - apply (IH ltac:(intros b i k Hb; apply Hkeys; by right)
               (rows0 ++ (write_row float_repr header <$> item :: batch))).
      apply Forall_app. split; [done|]. apply Forall_fmap, Forall_forall.
      intros it _. apply length_write_row.
    - apply fieldnames_nonempty.
    - intros f Hf. apply elem_of_app. by left.
    - intros f Hf. unfold dynamic_fields in Hf.
      apply elem_of_filter in Hf as [Hno Hf].
      apply elem_of_union_list in Hf as (X & HX & Hf).
      apply list_elem_of_fmap in HX as (it & -> & Hit).
      apply elem_of_dom in Hf.
      destruct (Hkeys (item :: batch) it f ltac:(by left) Hit Hf) as [?|Hd]; [done|].
      apply elem_of_app. right. by apply elem_of_sorted. }
  apply Hgen. apply Forall_fmap, Forall_forall. intros it _. apply length_write_row.
Qed.

Lemma save_all_rectangular_witness :
  ∃ rows,
    save_all no_floats [[batch_A "1" "2"]; [batch_A "3" "4"]] None
      = Some ((get_all_possible_fields ++ sorted (dynamic_fields [batch_A "1" "2"])) :: rows) ∧
    Forall (λ row, length row
                   = length (get_all_possible_fields
                             ++ sorted (dynamic_fields [batch_A "1" "2"])))
           rows.
Proof.
  apply (save_all_rectangular no_floats [batch_A "1" "2"] [[batch_A "3" "4"]]).
  - discriminate.
  - intros batch item key ->%list_elem_of_singleton ->%list_elem_of_singleton Hkey.
    right. apply (elem_of_dynamic_fields _ (batch_A "1" "2")); [by left| |].
    + destruct Hkey as [v Hv]. unfold batch_A in *.
      destruct (decide (key = "x")) as [->|]; [by eexists|].
      destruct (decide (key = "y")) as [->|]; [by eexists|].
      rewrite lookup_insert_ne, lookup_singleton_ne in Hv by done. done.
    + intros Hin. destruct Hkey as [v Hv]. unfold batch_A in Hv.
      destruct (decide (key = "x")) as [->|]; [by vm_compute in Hin; set_solver|].
      destruct (decide (key = "y")) as [->|]; [by vm_compute in Hin; set_solver|].
      rewrite lookup_insert_ne, lookup_singleton_ne in Hv by done. done.
Defined.

(** ** The worker loop without and with an interrupt *)

Lemma flush_if_due_cases float_repr batch_size len i w :
  length (batch w) ≤ batch_size `max` 1 →
  (flush_if_due float_repr batch_size len i w
   = State [] (processed w) (save_to_csv float_repr (batch w) (Worker.store w)))
  ∨ (flush_if_due float_repr batch_size len i w = w ∧
     length (batch w) < batch_size `max` 1).
Proof.
  intros Hlen. unfold flush_if_due.
  destruct (Nat.leb_spec batch_size (length (batch w))); simpl; [by left|].
  destruct (i =? len); [by left|right]. split; [done|lia].
Qed.

Lemma url_loop_uninterrupted float_repr batch_size len i events w :
  uninterrupted events →
  length (batch w) < batch_size `max` 1 →
  ∃ batches w',
    url_loop float_repr batch_size len i events w = (Exhausted, w') ∧
    batch w ++ accepted events = concat batches ++ batch w' ∧
    Worker.store w' = save_all float_repr batches (Worker.store w) ∧
    Forall (λ b, b ≠ [] ∧ length b ≤ batch_size `max` 1) batches ∧
    length (batch w') < batch_size `max` 1 ∧
    processed w' = processed w + length (accepted events).
Proof.
  intros Hrun. revert i w.
  induction Hrun as [|event events Hevent _ IH]; intros i w Hlen.
  - exists [], w. simpl. by rewrite app_nil_r, Nat.add_0_r.
  - destruct event as [data| | | | | |]; try done; simpl.
    + destruct (flush_if_due_cases float_repr batch_size len i (accept data w))
        as [Hflush|[Hkeep Hshort]].
      { simpl. rewrite length_app. simpl. lia. }
      * rewrite Hflush.
        destruct (IH (S i) (State [] (processed (accept data w))
                              (save_to_csv float_repr (batch (accept data w))
                                 (Worker.store (accept data w)))))
          as (batches & w' & Hloop & Hcat & Hstore & Hall & Hlen' & Hproc).
        { simpl. lia. }
        exists ((batch w ++ [data]) :: batches), w'. simpl in *.
        split; [done|]. split; [by rewrite <- !app_assoc, <- Hcat|].
        split; [done|]. split; [|split; [done|lia]].
        constructor; [|done]. split; [by destruct (batch w)|].
        rewrite length_app. simpl. lia.
      * rewrite Hkeep.
        destruct (IH (S i) (accept data w) Hshort)
          as (batches & w' & Hloop & Hcat & Hstore & Hall & Hlen' & Hproc).
        exists batches, w'. simpl in *.
        split; [done|]. split; [by rewrite <- Hcat, <- app_assoc|].
        split; [done|]. split; [done|]. split; [done|lia].
    + by apply IH.
Qed.

(** A run that no interrupt cuts short writes every scraped record once:
    the store is what [save_to_csv] makes of it on a sequence of non-empty
    batches, of at most [batch_size] records each (one when [batch_size]
    is 0), which put end to end are the scraped records in order; and
    [processed] counts them. *)
Theorem worker_thread_writes_once float_repr events store batch_size :
  uninterrupted events →
  ∃ batches,
    concat batches = accepted events ∧
    Forall (λ b, b ≠ [] ∧ length b ≤ batch_size `max` 1) batches ∧
    Worker.store (worker_thread float_repr events store batch_size)
      = save_all float_repr batches store ∧
    processed (worker_thread float_repr events store batch_size)
      = length (accepted events).
Proof.
  intros Hrun.
  destruct (url_loop_uninterrupted float_repr batch_size (length events) 1 events
              (State [] 0 store) Hrun)
    as (batches & w' & Hloop & Hcat & Hstore & Hall & Hlen & Hproc); [simpl; lia|].
  unfold worker_thread. rewrite Hloop. simpl in *. unfold flush_pending.
  destruct (batch w') as [|item pending] eqn:Hb.
  - exists batches. rewrite app_nil_r in Hcat. done.
  - exists (batches ++ [item :: pending]). simpl.
    split; [by rewrite concat_app, Hcat; simpl; rewrite app_nil_r|].
    split; [|split; [by rewrite save_all_snoc, Hstore|done]].
    apply Forall_app. split; [done|]. constructor; [|done]. split; [done|]. lia.
Qed.

Lemma worker_thread_writes_once_witness :
  ∃ batches,
    concat batches = [batch_A "1" "2"; batch_B "3" "4"; batch_A "5" "6"] ∧
    Forall (λ b, b ≠ [] ∧ length b ≤ 2) batches ∧
    Worker.store (worker_thread no_floats
      [Scraped (batch_A "1" "2"); Failed; Scraped (batch_B "3" "4");
       Scraped (batch_A "5" "6"); Failed] None 2)
      = save_all no_floats batches None ∧
    processed (worker_thread no_floats
      [Scraped (batch_A "1" "2"); Failed; Scraped (batch_B "3" "4");
       Scraped (batch_A "5" "6"); Failed] None 2) = 3.
Proof.
  apply (worker_thread_writes_once no_floats
           [Scraped (batch_A "1" "2"); Failed; Scraped (batch_B "3" "4");
            Scraped (batch_A "5" "6"); Failed] None 2).
  repeat constructor.
Defined.



(** ** Traveler types as field names *)

Lemma replace_char_removes old new s :
  old ≠ new → char_in old (TravelerType.replace_char old new s) = false.
Proof.
  intros Hne. unfold TravelerType.replace_char.
  induction s as [|c s IH]; simpl; [done|]. rewrite IH, orb_false_r.
  destruct (Ascii.eqb_spec c old) as [->|Hc]; apply Ascii.eqb_neq; congruence.
Qed.

Lemma replace_char_keeps_out c old new s :
  c ≠ new → char_in c s = false →
  char_in c (TravelerType.replace_char old new s) = false.
Proof.
  intros Hne. unfold TravelerType.replace_char.
  induction s as [|d s IH]; simpl; [done|].
  intros [Hd Hs]%orb_false_iff. rewrite (IH Hs), orb_false_r.
  destruct (Ascii.eqb d old); [by apply Ascii.eqb_neq|done].
Qed.

Lemma mappings_values key value :
  TravelerType.mappings !! key = Some value →
  value ∈ ["couples"; "groups_friends"; "solo_travelers"; "families";
           "business_travellers"].
Proof.
  intros H%elem_of_list_to_map_2.
  repeat (apply elem_of_cons in H as [[= _ <-]|H]; [set_solver|]).
  by apply elem_of_nil in H.
Qed.

(** The name [normalize_traveler_type] returns holds neither a blank nor
    a hyphen, and for every label the mapping knows, the score and count
    keys that [scrape_property_data] builds from it are predefined
    columns of the CSV file. *)
Theorem normalize_traveler_type_field (lower : string → string) traveler_type :
  let normalized :=
    TravelerType.replace_char "-" "_"
      (TravelerType.replace_char " " "_" (lower traveler_type)) in
  let name := TravelerType.normalize_traveler_type lower traveler_type in
  char_in " " name = false ∧ char_in "-" name = false ∧
  (is_Some (TravelerType.mappings !! normalized) →
   TravelerType.score_field lower traveler_type ∈ get_all_possible_fields ∧
   TravelerType.count_field lower traveler_type ∈ get_all_possible_fields).
Proof.
  intros normalized name.
  unfold TravelerType.score_field, TravelerType.count_field.
  fold name. unfold name, TravelerType.normalize_traveler_type. fold normalized.
  destruct (TravelerType.mappings !! normalized) as [value|] eqn:Hm; simpl.
  - apply mappings_values in Hm.
    repeat (apply elem_of_cons in Hm as [->|Hm];
            [split; [done|]; split; [done|]; intros _; split; vm_compute; set_solver|]).
    by apply elem_of_nil in Hm.
  - split; [|split; [|by intros [? ?]]].
    + apply replace_char_keeps_out; [done|]. by apply replace_char_removes.
    + by apply replace_char_removes.
Qed.

Lemma normalize_traveler_type_field_witness :
  TravelerType.score_field (λ s, s) "solo-traveller" ∈ get_all_possible_fields ∧
  TravelerType.count_field (λ s, s) "solo-traveller" ∈ get_all_possible_fields.
Proof.
  apply (normalize_traveler_type_field (λ s, s) "solo-traveller").
  by eexists.
Defined.

(** ** Prices *)

Lemma py_min_spec first others :
  py_min first others ∈ first :: others ∧
  ∀ p, p ∈ first :: others → (py_min first others ≤ p)%N.
Proof.
  unfold py_min. revert first. induction others as [|x others IH]; intros first; simpl.
  - split; [by left|]. by intros p ->%list_elem_of_singleton.
  - destruct (IH (N.min first x)) as [Hin Hle]. split.
    + apply elem_of_cons in Hin as [->|Hin]; [|by right; right].
      destruct (N.min_spec first x) as [[_ ->]|[_ ->]]; [by left|right; by left].
    + intros p [->|[->|Hp]%elem_of_cons]%elem_of_cons.
      * etrans; [apply Hle; by left|]. apply N.le_min_l.
      * etrans; [apply Hle; by left|]. apply N.le_min_r.
      * apply Hle. by right.
Qed.

Lemma py_max_spec first others :
  py_max first others ∈ first :: others ∧
  ∀ p, p ∈ first :: others → (p ≤ py_max first others)%N.
Proof.
  unfold py_max. revert first. induction others as [|x others IH]; intros first; simpl.
  - split; [by left|]. by intros p ->%list_elem_of_singleton.
  - destruct (IH (N.max first x)) as [Hin Hle]. split.
    + apply elem_of_cons in Hin as [->|Hin]; [|by right; right].
      destruct (N.max_spec first x) as [[_ ->]|[_ ->]]; [right; by left|by left].
    + intros p [->|[->|Hp]%elem_of_cons]%elem_of_cons.
      * etrans; [apply N.le_max_l|]. apply Hle; by left.
      * etrans; [apply N.le_max_r|]. apply Hle; by left.
      * apply Hle. by right.
Qed.

Lemma list_filter_reverse {A} (p : A → bool) (l : list A) :
  List.filter p (reverse l) = reverse (List.filter p l).
Proof.
  induction l as [|x l IH]; [done|].
  rewrite reverse_cons, List.filter_app, IH. simpl.
  destruct (p x); [by rewrite reverse_cons|by rewrite app_nil_r].
Qed.

Lemma list_filter_same {A} (p q : A → bool) (l : list A) :
  (∀ x, x ∈ l → p x = q x) → List.filter p l = List.filter q l.
Proof.
  induction l as [|x l IH]; intros Hpq; simpl; [done|].
  rewrite (Hpq x) by left. rewrite IH; [done|]. intros y Hy. apply Hpq. by right.
Qed.

Lemma list_filter_sub {A} (p : A → bool) (l : list A) x :
  x ∈ List.filter p l → x ∈ l.
Proof.
  induction l as [|y l IH]; simpl; [done|].
  destruct (p y); [|by right; apply IH].
  intros [->|Hx]%elem_of_cons; [by left|by right; apply IH].
Qed.

(** Stripping takes white space away, at the two ends. *)
Lemma list_filter_none {A} (p : A → bool) (l : list A) :
  Forall (λ x, p x = false) l → List.filter p l = [].
Proof. induction 1 as [|x l Hx _ IH]; simpl; [done|]. by rewrite Hx. Qed.

Lemma list_filter_strip_chars (p : string → bool) text :
  (∀ ch, Unicode.isspace ch = true → p ch = false) →
  List.filter p (Unicode.strip_chars text) = List.filter p text.
Proof.
  intros Hp. destruct (strip_chars_split text) as (before & after & Htext & Hb & Ha).
  rewrite Htext at 2. rewrite !List.filter_app.
  rewrite (list_filter_none p before), (list_filter_none p after), app_nil_r; [done|..];
    (eapply Forall_impl; [eassumption|done]).
Qed.

Lemma whitespace_no_digit ch : Unicode.isspace ch = true → Unicode.isdigit ch = false.
Proof.
  intros Hch%bool_decide_eq_true.
  assert (forallb (λ ch, negb (Unicode.isdigit ch)) Unicode.whitespace = true) as Hall
    by by vm_compute.
  rewrite forallb_forall in Hall. apply list_elem_of_In, Hall in Hch.
  by apply negb_true_iff.
Qed.

Lemma decimal_is_digit ch : Unicode.isdecimal ch = true → Unicode.isdigit ch = true.
Proof. unfold Unicode.isdigit. by intros ->. Qed.

Lemma whitespace_no_decimal ch : Unicode.isspace ch = true → Unicode.isdecimal ch = false.
Proof.
  intros Hch%whitespace_no_digit. destruct (Unicode.isdecimal ch) eqn:Hd; [|done].
  apply decimal_is_digit in Hd. congruence.
Qed.

Lemma decimal_runs_from_join run text :
  Unicode.join (decimal_runs_from run text)
  = Unicode.join run +:+ Unicode.join (List.filter Unicode.isdecimal text).
Proof.
  revert run. induction text as [|ch text IH]; intros run;
    cbn [decimal_runs_from List.filter].
  - change (Unicode.join []) with "". rewrite str_app_nil_r.
    destruct run; [done|]. rewrite join_cons. change (Unicode.join []) with "".
    by rewrite str_app_nil_r.
  - destruct (Unicode.isdecimal ch).
    + rewrite IH, join_app, !join_cons. change (Unicode.join []) with "".
      by rewrite str_app_nil_r, str_app_assoc.
    + destruct run as [|d run]; [by rewrite IH|]. rewrite (join_cons (Unicode.join _)), IH.
      change (Unicode.join []) with "". by rewrite str_app_nil_l.
Qed.

Lemma decimal_runs_from_nil run text :
  decimal_runs_from run text = [] ↔ run = [] ∧ List.filter Unicode.isdecimal text = [].
Proof.
  revert run. induction text as [|ch text IH]; intros run;
    cbn [decimal_runs_from List.filter].
  - destruct run; naive_solver.
  - destruct (Unicode.isdecimal ch).
    + rewrite IH. split; [intros [H _]; by destruct run|by intros [_ ?]].
    + destruct run as [|d run]; [by rewrite IH|]. naive_solver.
Qed.

(** [extract_prices] answers with both prices or with neither, unless
    the ValueError of [int] on a match of the page source leaves it.  The
    prices come from one tier only, the first that found any: the price
    table, else the generic selectors, else the page source.  The two
    returned are the least and the greatest price of that tier, so the
    minimum never exceeds the maximum.  A price-table text that [int]
    rejects, such as one with a superscript digit, adds no price. *)
Theorem extract_prices_range py_int price_elements generic_elements source_matches :
  let primary := omap (primary_price py_int) price_elements in
  let generic := omap (generic_price py_int) (concat generic_elements) in
  let source := mapM py_int source_matches in
  let result := extract_prices py_int price_elements generic_elements source_matches in
  ((result = None ∧ primary = [] ∧ generic = [] ∧ source = None) ∨
   (result = Some (None, None) ∧ primary = [] ∧ generic = [] ∧ source = Some []) ∨
   ∃ prices lo hi,
     result = Some (Some lo, Some hi) ∧
     (prices = primary ∧ primary ≠ [] ∨
      primary = [] ∧ prices = generic ∧ generic ≠ [] ∨
      primary = [] ∧ generic = [] ∧ source = Some prices ∧ prices ≠ []) ∧
     lo ∈ prices ∧ hi ∈ prices ∧ (lo ≤ hi)%N ∧
     ∀ p, p ∈ prices → (lo ≤ p ≤ hi)%N) ∧
  extract_prices Unicode.int_of_text ["€ 120¹"] [] [] = Some (None, None) ∧
  extract_prices Unicode.int_of_text ["€ 120"; "€ 95"] [["€ 80"]] ["70"]
    = Some (Some 95%N, Some 120%N).
Proof.
  intros primary generic source result. split; [|by vm_compute].
  unfold result, extract_prices.
  fold primary generic source.
  assert (Hbounds : ∀ first others,
    ∃ lo hi, (Some (py_min first others), Some (py_max first others)) = (Some lo, Some hi) ∧
      lo ∈ first :: others ∧ hi ∈ first :: others ∧ (lo ≤ hi)%N ∧
      ∀ p, p ∈ first :: others → (lo ≤ p ≤ hi)%N).
  { intros first others.
    destruct (py_min_spec first others) as [Hmin Hle].
    destruct (py_max_spec first others) as [Hmax Hge].
    exists (py_min first others), (py_max first others).
    split; [done|]. split; [done|]. split; [done|]. split; [by apply Hle|].
    intros p Hp. split; [by apply Hle|by apply Hge]. }
  destruct primary as [|p1 ps].
  - destruct generic as [|g1 gs].
    + destruct source as [[|s1 ss]|]; [right; by left| |by left]. right; right.
      destruct (Hbounds s1 ss) as (lo & hi & Heq & ?). exists (s1 :: ss), lo, hi.
      split; [simpl; by rewrite Heq|]. split; [|done]. right; right. done.
    + right; right. destruct (Hbounds g1 gs) as (lo & hi & Heq & ?).
      exists (g1 :: gs), lo, hi.
      split; [simpl; by rewrite Heq|]. split; [|done]. right; left. done.
  - right; right. destruct (Hbounds p1 ps) as (lo & hi & Heq & ?). exists (p1 :: ps), lo, hi.
    split; [simpl; by rewrite Heq|]. split; [|done]. by left.
Qed.

(** The price table and the generic selectors read the same price from
    a text all of whose digits are decimal digits, as in any text of
    ASCII digits: what [int] makes of all the decimal digits of the text
    in their order, whatever stands between them, a decimal point
    included; a text without a digit gives no price.  A digit that is not
    decimal, such as a superscript, parts the two: the price table then
    hands [int] a text it rejects and reads no price, the generic
    selectors do not see that digit. *)
Theorem element_price_is_all_digits :
  (∀ py_int el_text,
     (∀ ch, ch ∈ Unicode.chars el_text →
            Unicode.isdigit ch = true → Unicode.isdecimal ch = true) →
     generic_price py_int el_text = primary_price py_int el_text ∧
     primary_price py_int el_text =
       match List.filter Unicode.isdecimal (Unicode.chars el_text) with
       | [] => None
       | digits => py_int (Unicode.join digits)
       end) ∧
  primary_price Unicode.int_of_text "€ 120¹" = None ∧
  generic_price Unicode.int_of_text "€ 120¹" = Some 120%N.
Proof.
  split; [|by vm_compute].
  intros py_int el_text Hdecimal.
  set (text := Unicode.chars el_text) in *.
  remember (List.filter Unicode.isdecimal text) as digits eqn:Hdef.
  assert (Hstrip : List.filter Unicode.isdecimal (Unicode.strip_chars text) = digits)
    by (rewrite Hdef; apply list_filter_strip_chars, whitespace_no_decimal).
  assert (Hdigits : List.filter Unicode.isdigit (Unicode.strip_chars text) = digits).
  { rewrite list_filter_strip_chars by apply whitespace_no_digit.
    rewrite Hdef. apply list_filter_same. intros ch Hch.
    destruct (Unicode.isdigit ch) eqn:Hd; [symmetry; by apply Hdecimal|].
    destruct (Unicode.isdecimal ch) eqn:He; [|done].
    apply decimal_is_digit in He. congruence. }
  assert (Hprimary : primary_price py_int el_text =
            match digits with [] => None | _ => py_int (Unicode.join digits) end).
  { unfold primary_price. fold text. rewrite <- Hdigits.
    destruct (Unicode.strip_chars text) as [|ch txt]; [done|].
    by destruct (List.filter Unicode.isdigit (ch :: txt)). }
  split; [|rewrite Hprimary; by destruct digits].
  rewrite Hprimary. unfold generic_price, decimal_runs. fold text. clear Hdef.
  destruct (Unicode.strip_chars text) as [|ch txt] eqn:Htxt.
  { simpl in Hstrip. by rewrite <- Hstrip. }
  set (kept := List.filter (Unicode.is_not ",") (ch :: txt)).
  assert (Hkept : List.filter Unicode.isdecimal kept = digits).
  { unfold kept. rewrite list_filter_filter; [done|].
    intros c Hc. apply is_not_spec. by intros ->. }
  pose proof (decimal_runs_from_join [] kept) as Hjoin.
  pose proof (decimal_runs_from_nil [] kept) as Hnil.
  rewrite Hkept in Hjoin, Hnil. rewrite str_app_nil_l in Hjoin.
  destruct (decimal_runs_from [] kept) as [|run runs].
  - by destruct Hnil as [[_ ->] _].
  - rewrite Hjoin.
    by destruct digits as [|d ds]; [destruct Hnil as [_ ?%(λ H, H (conj eq_refl eq_refl))]|].
Qed.

Lemma element_price_is_all_digits_witness :
  generic_price Unicode.int_of_text "MAD 1,250.00"
    = primary_price Unicode.int_of_text "MAD 1,250.00" ∧
  primary_price Unicode.int_of_text "MAD 1,250.00" =
    match List.filter Unicode.isdecimal (Unicode.chars "MAD 1,250.00") with
    | [] => None
    | digits => Unicode.int_of_text (Unicode.join digits)
    end.
Proof.
  apply (proj1 element_price_is_all_digits Unicode.int_of_text "MAD 1,250.00").
  apply (proj1 (Forall_forall
           (λ ch, Unicode.isdigit ch = true → Unicode.isdecimal ch = true) _)).
  set (text := Unicode.chars _). vm_compute in text. subst text.
  repeat (constructor; [by vm_compute|]). constructor.
Defined.

(** ** The category in the breadcrumb *)

Lemma paren_groups_from_cons group c rest :
  paren_groups_from group (String c rest) =
  match group with
  | None =>
      if Ascii.eqb c "(" then paren_groups_from (Some "") rest
      else paren_groups_from None rest
  | Some inside =>
      if Ascii.eqb c ")" then
        if String.eqb inside "" then paren_groups_from None rest
        else inside :: paren_groups_from None rest
      else paren_groups_from (Some (inside +:+ String c "")) rest
  end.
Proof. done. Qed.

Lemma paren_groups_outside name rest :
  char_in "(" name = false →
  paren_groups_from None (name +:+ rest) = paren_groups_from None rest.
Proof.
  induction name as [|c name IH]; [done|].
  rewrite str_app_cons, char_in_cons, paren_groups_from_cons.
  intros [Hc Hname]%orb_false_iff. rewrite Ascii.eqb_sym, Hc. by apply IH.
Qed.

Lemma paren_groups_no_open text :
  char_in "(" text = false → paren_groups_from None text = [].
Proof.
  intros H. rewrite <- (str_app_nil_r text). by rewrite paren_groups_outside.
Qed.

Lemma paren_groups_inside inside group rest :
  char_in ")" group = false → inside +:+ group ≠ "" →
  paren_groups_from (Some inside) (group +:+ String ")" rest)
  = (inside +:+ group) :: paren_groups_from None rest.
Proof.
  revert inside. induction group as [|c group IH]; intros inside.
  - rewrite str_app_nil_r, str_app_nil_l, paren_groups_from_cons. intros _ Hne.
    rewrite Ascii.eqb_refl. by destruct (String.eqb_spec inside "").
  - rewrite str_app_cons, char_in_cons, paren_groups_from_cons.
    intros [Hc Hgroup]%orb_false_iff Hne.
    rewrite Ascii.eqb_sym, Hc. rewrite IH.
    + by rewrite str_app_assoc.
    + done.
    + by rewrite str_app_assoc.
Qed.

Lemma paren_groups_one name group rest :
  char_in "(" name = false → char_in ")" group = false → group ≠ "" →
  paren_groups (name +:+ String "(" (group +:+ String ")" rest))
  = group :: paren_groups rest.
Proof.
  intros Hname Hgroup Hne. unfold paren_groups.
  rewrite paren_groups_outside, paren_groups_from_cons by done.
  rewrite Ascii.eqb_refl. by rewrite paren_groups_inside.
Qed.

Lemma paren_groups_unclosed group text :
  char_in ")" text = false → paren_groups_from group text = [].
Proof.
  revert group. induction text as [|c text IH]; intros group; [by destruct group|].
  rewrite char_in_cons, paren_groups_from_cons.
  intros [Hc Htext]%orb_false_iff. rewrite Ascii.eqb_sym, Hc.
  destruct group as [inside|]; [by apply IH|]. destruct (Ascii.eqb c "("); by apply IH.
Qed.

Lemma paren_groups_closing group text after :
  char_in ")" after = false →
  paren_groups_from group (text +:+ after) = paren_groups_from group text.
Proof.
  intros Hafter. revert group. induction text as [|c text IH]; intros group.
  - rewrite str_app_nil_l, paren_groups_unclosed by done. by destruct group.
  - rewrite str_app_cons, !paren_groups_from_cons.
    destruct group as [inside|].
    + destruct (Ascii.eqb c ")"); [destruct (String.eqb inside "")|]; by rewrite IH.
    + destruct (Ascii.eqb c "("); by rewrite IH.
Qed.

Lemma whitespace_no_paren ch :
  Unicode.isspace ch = true → char_in "(" ch = false ∧ char_in ")" ch = false.
Proof.
  intros Hch%bool_decide_eq_true.
  assert (forallb (λ ch, negb (char_in "(" ch) && negb (char_in ")" ch))
            Unicode.whitespace = true) as Hall by by vm_compute.
  rewrite forallb_forall in Hall. apply list_elem_of_In, Hall in Hch.
  apply andb_true_iff in Hch as [H1%negb_true_iff H2%negb_true_iff]. done.
Qed.

Lemma spaces_no_paren spaces :
  Forall (λ ch, Unicode.isspace ch = true) spaces →
  char_in "(" (Unicode.join spaces) = false ∧ char_in ")" (Unicode.join spaces) = false.
Proof.
  induction 1 as [|ch spaces Hch _ [IH1 IH2]]; [done|].
  destruct (whitespace_no_paren ch Hch) as [H1 H2].
  by rewrite join_cons, !char_in_app, H1, H2, IH1, IH2.
Qed.

(** Stripping takes away white space at the two ends, and white space
    holds no parenthesis. *)
Lemma strip_split text :
  ∃ before after,
    text = before +:+ Unicode.strip text +:+ after ∧
    char_in "(" before = false ∧ char_in ")" after = false.
Proof.
  destruct (strip_chars_split (Unicode.chars text)) as (before & after & Htext & Hb & Ha).
  exists (Unicode.join before), (Unicode.join after).
  split; [|split; [by apply spaces_no_paren|by apply spaces_no_paren]].
  unfold Unicode.strip. rewrite <- !join_app, <- Htext. by rewrite chars_join.
Qed.

Lemma paren_groups_strip text : paren_groups (Unicode.strip text) = paren_groups text.
Proof.
  destruct (strip_split text) as (before & after & Htext & Hbefore & Hafter).
  unfold paren_groups. rewrite Htext at 2.
  by rewrite paren_groups_outside, paren_groups_closing.
Qed.

(** [extract_category] never answers 'Guest House' or 'Condo Hotel'.
    For a breadcrumb of the shape [name (a) between (b) tail], with no
    other parenthesis, the category is [a], the group before the last;
    for a breadcrumb without an opening parenthesis it is the whole text,
    stripped of the white space at its ends, no-break spaces included;
    both under the two renamings. *)
Theorem extract_category_spec :
  (∀ element_text,
     extract_category element_text ≠ Some "Guest House" ∧
     extract_category element_text ≠ Some "Condo Hotel") ∧
  (∀ name a between b tail,
     char_in "(" name = false → char_in "(" between = false →
     char_in "(" tail = false →
     char_in ")" a = false → a ≠ "" → char_in ")" b = false → b ≠ "" →
     extract_category
       (Some (name +:+ String "(" (a +:+ String ")"
                (between +:+ String "(" (b +:+ String ")" tail)))))
     = Some (renamed a)) ∧
  (∀ text, char_in "(" text = false →
     extract_category (Some text) = Some (renamed (Unicode.strip text))) ∧
  extract_category (Some (Unicode.encode 160 +:+ "Guest House" +:+ Unicode.encode 160))
    = Some "Riad".
Proof.
  split; [|split; [|split; [|by vm_compute]]].
  - intros [text|]; [|done]. unfold extract_category.
    set (category := match reverse (paren_groups (Unicode.strip text)) with
                     | [] => Unicode.strip text
                     | [only] => only
                     | _ :: second :: _ => second
                     end).
    destruct (String.eqb_spec category "Guest House") as [|H1]; [done|].
    destruct (String.eqb_spec category "Condo Hotel") as [|H2]; [done|].
    split; congruence.
  - intros name a between b tail Hname Hbetween Htail Ha Hane Hb Hbne.
    unfold extract_category. rewrite paren_groups_strip.
    rewrite paren_groups_one, paren_groups_one by done.
    unfold paren_groups. rewrite paren_groups_no_open by done.
    replace (reverse [a; b]) with [b; a] by done. cbv beta iota. unfold renamed.
    by destruct (String.eqb a "Guest House"), (String.eqb a "Condo Hotel").
  - intros text Htext. unfold extract_category.
    rewrite paren_groups_strip. unfold paren_groups.
    rewrite paren_groups_no_open by done.
    replace (reverse []) with (@nil string) by done. cbv beta iota. unfold renamed.
    by destruct (String.eqb (Unicode.strip text) "Guest House"),
                (String.eqb (Unicode.strip text) "Condo Hotel").
Qed.

Lemma extract_category_spec_witness :
  extract_category (Some " Dar Zitoun (Riad) (Marrakech) ") = Some (renamed "Riad") ∧
  extract_category (Some "  Guest House ")
    = Some (renamed (Unicode.strip "  Guest House ")).
Proof.
  split.
  - apply (proj1 (proj2 extract_category_spec) " Dar Zitoun " "Riad" " " "Marrakech" " ");
      (reflexivity || discriminate).
  - apply (proj1 (proj2 (proj2 extract_category_spec))). reflexivity.
Defined.

(** ** The geocoder's answer *)

Lemma location_lookup (address zone city : pyval) :
  let location : gmap string pyval :=
    {[ "address" := address; "zone" := zone; "city" := city ]} in
  location !! "address" = Some address ∧ location !! "zone" = Some zone ∧
  location !! "city" = Some city.
Proof.
  intros location. unfold location. split; [|split].
  - by rewrite lookup_insert_eq.
  - by rewrite lookup_insert_ne, lookup_insert_eq.
  - by rewrite !lookup_insert_ne, lookup_singleton_eq.
Qed.

Lemma zone_loop_none fields components zone :
  (∀ f, f ∈ fields → components !! f = None ∨ components !! f = Some "") →
  zone_loop fields components zone = zone.
Proof.
  induction fields as [|field fields IH]; intros Hall; simpl; [done|].
  destruct (Hall field ltac:(by left)) as [-> | ->]; simpl;
    apply IH; intros; apply Hall; by right.
Qed.

Lemma zone_loop_blank fields components zone :
  (∀ f v, f ∈ fields → components !! f = Some v → Unicode.join (latin_strip v) = "") →
  zone_loop fields components zone = zone ∨
  zone_loop fields components zone = Some "".
Proof.
  revert zone. induction fields as [|field fields IH]; intros zone Hall; simpl; [by left|].
  assert (Hrest : ∀ f v, f ∈ fields → components !! f = Some v → Unicode.join (latin_strip v) = "")
    by (intros f v ?; apply Hall; by right).
  destruct (components !! field) as [value|] eqn:Hv; [|by apply IH].
  destruct (String.eqb value ""); [by apply IH|].
  rewrite (Hall field value) by (done || by left). simpl.
  destruct (IH (Some "") Hrest) as [->| ->]; by right.
Qed.

Lemma zone_loop_blank_some fields components zone :
  (∀ f v, f ∈ fields → components !! f = Some v → Unicode.join (latin_strip v) = "") →
  (∃ f v, f ∈ fields ∧ components !! f = Some v ∧ v ≠ "") →
  zone_loop fields components zone = Some "".
Proof.
  revert zone. induction fields as [|field fields IH]; intros zone Hall (f & v & Hf & Hv & Hne).
  { by apply elem_of_nil in Hf. }
  assert (Hrest : ∀ f v, f ∈ fields → components !! f = Some v → Unicode.join (latin_strip v) = "")
    by (intros g w ?; apply Hall; by right).
  simpl. destruct (components !! field) as [value|] eqn:Hvalue.
  - destruct (String.eqb_spec value "") as [->|Hvne].
    + apply IH; [done|]. apply elem_of_cons in Hf as [->|Hf]; [congruence|eauto].
    + rewrite (Hall field value) by (done || by left). simpl.
      destruct (zone_loop_blank fields components (Some "") Hrest) as [->| ->]; done.
  - apply IH; [done|]. apply elem_of_cons in Hf as [->|Hf]; [congruence|eauto].
Qed.

Lemma zone_loop_first pre field post components value zone :
  components !! field = Some value → Unicode.join (latin_strip value) ≠ "" →
  (∀ g w, g ∈ pre → components !! g = Some w → Unicode.join (latin_strip w) = "") →
  zone_loop (pre ++ field :: post) components zone = Some (Unicode.join (latin_strip value)).
Proof.
  intros Hvalue Hclean. revert zone.
  induction pre as [|g pre IH]; intros zone Hpre; simpl.
  - rewrite Hvalue.
    destruct (String.eqb_spec value "") as [->|]; [done|].
    by destruct (String.eqb_spec (Unicode.join (latin_strip value)) "").
  - assert (Hrest : ∀ g w, g ∈ pre → components !! g = Some w → Unicode.join (latin_strip w) = "")
      by (intros h w ?; apply Hpre; by right).
    destruct (components !! g) as [w|] eqn:Hw; [|by apply IH].
    destruct (String.eqb w ""); [by apply IH|].
    rewrite (Hpre g w) by (done || by left). simpl. by apply IH.
Qed.

Lemma Forall_strip_chars (P : string → Prop) text :
  Forall P text → Forall P (Unicode.strip_chars text).
Proof.
  destruct (strip_chars_split text) as (before & after & Htext & _).
  rewrite Htext at 1. rewrite !Forall_app. tauto.
Qed.

Lemma join_empty parts : Unicode.join parts = "" → Forall (λ ch, ch = "") parts.
Proof.
  induction parts as [|ch parts IH]; [constructor|]. rewrite join_cons.
  destruct ch; [|done]. rewrite str_app_nil_l. intros H. constructor; [done|by apply IH].
Qed.

(** What [get_location_details] makes of an answer.  The address is made
    of letters and digits of the ASCII ranges, white space, hyphens, dots
    and apostrophes, and holds no comma.  The zone is the cleaned value
    of the first zone field, in the order neighbourhood, suburb, quarter,
    city_district, district, that is not empty after cleaning; it is
    [None] when no zone field has a value, and the empty text, not
    [None], when fields have values but none survives the cleaning.  A
    no-break space is white space to the pattern: it stays inside the
    address and is stripped from its ends. *)
Theorem get_location_details_spec data :
  let components := address_components data in
  let location := get_location_details (Some data) in
  (∃ address, location !! "address" = Some (PStr (Unicode.join address)) ∧
              Forall (λ ch, latin_char ch = true ∧ ch ≠ ",") address) ∧
  ((∀ f, f ∈ zone_fields → components !! f = None ∨ components !! f = Some "") →
   location !! "zone" = Some PNone) ∧
  (∀ pre field post value,
     zone_fields = pre ++ field :: post →
     components !! field = Some value → Unicode.join (latin_strip value) ≠ "" →
     (∀ g w, g ∈ pre → components !! g = Some w → Unicode.join (latin_strip w) = "") →
     location !! "zone" = Some (PStr (Unicode.join (latin_strip value)))) ∧
  ((∃ f v, f ∈ zone_fields ∧ components !! f = Some v ∧ v ≠ "") →
   (∀ f v, f ∈ zone_fields → components !! f = Some v → Unicode.join (latin_strip v) = "") →
   location !! "zone" = Some (PStr "")) ∧
  get_location_details
    (Some (Nominatim ("Rue" +:+ Unicode.encode 160 +:+ "Sebta, Fès" +:+ Unicode.encode 160) ∅))
    !! "address" = Some (PStr ("Rue" +:+ Unicode.encode 160 +:+ "Sebta  Fs")).
Proof.
  intros components location. unfold location, get_location_details. fold components.
  set (address := if String.eqb (Unicode.join (latin_strip (display_name data))) ""
                  then _ else _).
  destruct (location_lookup (PStr (Unicode.join address))
              (optional_text (zone_loop zone_fields components None))
              (optional_text (city_loop city_fields components)))
    as (Haddr & Hzone & _).
  split; [|split; [|split; [|split]]]; [| | | |by vm_compute].
  - exists address. split; [exact Haddr|].
    assert (Forall (λ ch, latin_char ch = true) (latin_strip (display_name data))) as Hclean.
    { apply Forall_strip_chars. unfold latin_sub.
      eapply Forall_impl; [apply (Forall_list_filter (λ _, True)); by apply Forall_true|].
      by intros ch [_ ?]. }
    unfold address.
    destruct (String.eqb_spec (Unicode.join (latin_strip (display_name data))) "")
      as [Hempty|_].
    + apply join_empty in Hempty. rewrite Forall_forall in Hclean, Hempty.
      apply Forall_forall. intros ch Hch. split; [by apply Hclean|].
      rewrite (Hempty ch Hch). done.
    + apply Forall_fmap. eapply Forall_impl; [exact Hclean|].
      intros ch Hch. simpl. unfold comma_to_blank.
      by destruct (String.eqb_spec ch ",").
  - intros Hnone. rewrite Hzone. by rewrite zone_loop_none.
  - intros pre field post value Hfields Hvalue Hclean Hpre.
    rewrite Hzone, Hfields. by erewrite zone_loop_first.
  - intros Hsome Hblank. rewrite Hzone. by rewrite zone_loop_blank_some.
Qed.

Lemma get_location_details_spec_witness :
  get_location_details (Some casablanca) !! "zone" = Some (PStr "Maarif") ∧
  get_location_details (Some (Nominatim "" {[ "suburb" := "المعاريف" ]})) !! "zone"
    = Some (PStr "") ∧
  get_location_details (Some (Nominatim "" ∅)) !! "zone" = Some PNone.
Proof.
  split; [|split].
  - apply (proj1 (proj2 (proj2 (get_location_details_spec casablanca)))
             ["neighbourhood"] "suburb" ["quarter"; "city_district"; "district"] "Maarif").
    + reflexivity.
    + reflexivity.
    + by vm_compute.
    + intros g w ->%list_elem_of_singleton [= <-]. by vm_compute.
  - apply (proj1 (proj2 (proj2 (proj2 (get_location_details_spec
             (Nominatim "" {[ "suburb" := "المعاريف" ]})))))).
    + exists "suburb", "المعاريف". split; [set_solver|]. split; [reflexivity|discriminate].
    + intros f v Hf Hv. simpl in Hv.
      destruct (decide (f = "suburb")) as [->|Hne].
      * rewrite lookup_singleton_eq in Hv. injection Hv as <-. by vm_compute.
      * by rewrite lookup_singleton_ne in Hv.
  - apply (proj1 (proj2 (get_location_details_spec (Nominatim "" ∅)))).
    intros f _. by left.
Defined.

(** ** Apartments and other properties *)

Lemma is_apartment_true lower title page_source :
  is_apartment lower title page_source = true ↔
  title ≠ "" ∧
  (∀ keyword, keyword ∈ EXCLUDED_KEYWORDS → str_in keyword (lower title) = false) ∧
  ((∃ indicator, indicator ∈ APARTMENT_INDICATORS ∧
                 str_in indicator (lower title) = true) ∨
   (page_source ≠ "" ∧
    ∃ indicator, indicator ∈ APARTMENT_INDICATORS ∧
                 str_in indicator (lower page_source) = true)).
Proof.
  unfold is_apartment.
  destruct (String.eqb_spec title "") as [->|Htitle]; [naive_solver|].
  destruct (existsb _ EXCLUDED_KEYWORDS) eqn:Hex.
  { apply existsb_exists in Hex as (keyword & Hin%list_elem_of_In & Hk). split; [done|].
    intros (_ & Hnone & _). rewrite (Hnone keyword Hin) in Hk. done. }
  assert (∀ keyword, keyword ∈ EXCLUDED_KEYWORDS → str_in keyword (lower title) = false)
    as Hnone.
  { intros keyword Hin%list_elem_of_In. apply not_true_is_false. intros Hk.
    assert (existsb (λ keyword, str_in keyword (lower title)) EXCLUDED_KEYWORDS = true)
      as Hyes by (apply existsb_exists; eauto).
    rewrite Hyes in Hex. done. }
  destruct (existsb _ APARTMENT_INDICATORS) eqn:Htitle_ind.
  { apply existsb_exists in Htitle_ind as (indicator & Hin%list_elem_of_In & Hi).
    split; [|done]. intros _. split; [done|]. split; [done|]. left. eauto. }
  assert (¬ ∃ indicator, indicator ∈ APARTMENT_INDICATORS ∧
                         str_in indicator (lower title) = true) as Hno_title.
  { intros (indicator & Hin%list_elem_of_In & Hi).
    assert (existsb (λ indicator, str_in indicator (lower title)) APARTMENT_INDICATORS = true)
      as Hyes by (apply existsb_exists; eauto).
    rewrite Hyes in Htitle_ind. done. }
  destruct (String.eqb_spec page_source "") as [->|Hpage]; cbn [negb].
  { split; [done|]. intros (_ & _ & [?|[Hpage _]]); [done|by destruct Hpage]. }
  destruct (existsb (λ indicator, str_in indicator (lower page_source))
              APARTMENT_INDICATORS) eqn:Hpage_ind.
  - apply existsb_exists in Hpage_ind as (indicator & Hin%list_elem_of_In & Hi).
    split; [|done]. intros _. split; [done|]. split; [done|]. right. split; [done|]. eauto.
  - split; [done|]. intros (_ & _ & [?|[_ (indicator & Hin%list_elem_of_In & Hi)]]); [done|].
    assert (existsb (λ indicator, str_in indicator (lower page_source))
              APARTMENT_INDICATORS = true) as Hyes by (apply existsb_exists; eauto).
    rewrite Hyes in Hpage_ind. done.
Qed.

(** In [is_apartment] exclusion comes first and looks at the title only:
    a title that contains an excluded keyword, as a substring anywhere, is
    rejected whatever indicators the title or the page hold.  The page
    source can only add acceptances: a title accepted on its own is
    accepted with any page.  An empty title is always rejected. *)
Theorem is_apartment_exclusion_first (lower : string → string) title page_source :
  (∀ keyword, keyword ∈ EXCLUDED_KEYWORDS → str_in keyword (lower title) = true →
              is_apartment lower title page_source = false) ∧
  (is_apartment lower title "" = true → is_apartment lower title page_source = true) ∧
  is_apartment lower "" page_source = false ∧
  (is_apartment lower title page_source = true →
   is_apartment lower title "" = false →
   ∃ indicator, indicator ∈ APARTMENT_INDICATORS ∧
                str_in indicator (lower page_source) = true).
Proof.
  split; [|split; [|split]].
  - intros keyword Hin Hk. apply not_true_is_false.
    intros (_ & Hnone & _)%is_apartment_true. rewrite (Hnone keyword Hin) in Hk. done.
  - intros (Ht & Hnone & [Hind|[Hpage _]])%is_apartment_true; [|by destruct Hpage].
    apply is_apartment_true. auto.
  - done.
  - intros (Ht & Hnone & [Hind|[_ Hind]])%is_apartment_true Hno; [|done].
    assert (is_apartment lower title "" = true) as Hyes by (apply is_apartment_true; auto).
    rewrite Hyes in Hno. done.
Qed.

Lemma is_apartment_exclusion_first_witness :
  is_apartment (λ s, s) "spacious studio" "apartment" = false ∧
  is_apartment (λ s, s) "studio centre" "hotel" = true ∧
  ∃ indicator, indicator ∈ APARTMENT_INDICATORS ∧
               str_in indicator "bel appartement" = true.
Proof.
  split; [|split].
  - apply (proj1 (is_apartment_exclusion_first (λ s, s) "spacious studio" "apartment") "spa");
      [set_solver|reflexivity].
  - apply (proj1 (proj2 (is_apartment_exclusion_first (λ s, s) "studio centre" "hotel"))).
    reflexivity.
  - apply (proj2 (proj2 (proj2
             (is_apartment_exclusion_first (λ s, s) "gueliz" "bel appartement"))));
      reflexivity.
Defined.

(** ** The apartment file *)

Lemma dict_row_of float_repr (first r : ApartmentCsv.ApartmentData) :
  ApartmentCsv.fieldnames_of first = apartment_fields ∧
  ApartmentCsv.dict_row float_repr (ApartmentCsv.fieldnames_of first)
    (ApartmentCsv.row_of r) = apartment_line float_repr r.
Proof. done. Qed.

Lemma save_incremental_existing float_repr batch file :
  ApartmentCsv._save_to_csv_incremental float_repr batch (Some file)
  = Some (file ++ (apartment_line float_repr <$> batch)).
Proof.
  destruct batch as [|first batch]; simpl; [by rewrite app_nil_r|]. done.
Qed.

Lemma save_incremental_all_existing float_repr batches file :
  save_incremental_all float_repr batches (Some file)
  = Some (file ++ (apartment_line float_repr <$> concat batches)).
Proof.
  revert file. induction batches as [|batch batches IH]; intros file; simpl.
  - by rewrite app_nil_r.
  - unfold save_incremental_all in *. simpl.
    rewrite save_incremental_existing, IH, fmap_app. by rewrite app_assoc.
Qed.

(** The apartment file is a table when its first batch is not empty: the
    header of seventeen field names, then one line of seventeen cells for
    every apartment of every batch, in order.  When the first call gets
    an empty batch the file is created without a header and none is
    written later: every line is a data line. *)
Theorem save_incremental_table float_repr batches :
  (∀ first, first ≠ [] →
     save_incremental_all float_repr (first :: batches) None
     = Some (apartment_fields
             :: (apartment_line float_repr <$> concat (first :: batches)))) ∧
  save_incremental_all float_repr ([] :: batches) None
    = Some (apartment_line float_repr <$> concat batches) ∧
  (∀ r, length (apartment_line float_repr r) = length apartment_fields).
Proof.
  split; [|split].
  - intros [|r first] Hfirst; [done|].
    unfold save_incremental_all. simpl foldl at 1.
    change (foldl _ ?s batches) with (save_incremental_all float_repr batches s).
    unfold ApartmentCsv._save_to_csv_incremental. simpl.
    rewrite save_incremental_all_existing. simpl. by rewrite fmap_app.
  - unfold save_incremental_all. simpl foldl at 1.
    change (foldl _ ?s batches) with (save_incremental_all float_repr batches s).
    simpl. by rewrite save_incremental_all_existing.
  - done.
Qed.

Lemma save_incremental_table_witness :
  save_incremental_all no_floats [[studio_gueliz]; [studio_gueliz]] None
  = Some (apartment_fields
          :: (apartment_line no_floats <$> concat [[studio_gueliz]; [studio_gueliz]])).
Proof.
  apply (proj1 (save_incremental_table no_floats [[studio_gueliz]])). discriminate.
Defined.

(** Saving batch by batch into a file that did not exist gives, when the
    first batch is not empty, exactly the file that [_save_to_csv] writes
    in one go from all the results of the batches; the latter does not
    depend on what the file held before. *)
Theorem incremental_matches_one_shot float_repr first batches store :
  first ≠ [] →
  save_incremental_all float_repr (first :: batches) None
  = ApartmentCsv._save_to_csv float_repr (concat (first :: batches)) store.
Proof.
  destruct first as [|r first]; [done|]. intros _.
  unfold save_incremental_all. simpl foldl at 1.
  change (foldl _ ?s batches) with (save_incremental_all float_repr batches s).
  unfold ApartmentCsv._save_to_csv_incremental. simpl.
  rewrite save_incremental_all_existing. simpl. by rewrite fmap_app.
Qed.

Lemma incremental_matches_one_shot_witness :
  save_incremental_all no_floats [[studio_gueliz]; [studio_gueliz]] None
  = ApartmentCsv._save_to_csv no_floats (concat [[studio_gueliz]; [studio_gueliz]])
      (Some [["stale"]]).
Proof.
  apply (incremental_matches_one_shot no_floats [studio_gueliz] [[studio_gueliz]]).
  discriminate.
Defined.

(** ** Retries *)

Lemma pow2_step n : 2 ^ S n = 2 ^ n + 2 ^ n.
Proof. rewrite Nat.pow_succ_r'. lia. Qed.

Lemma retry_loop_first_success {A E} max_retries (func : nat → attempt_outcome A E)
    k value n start done :
  (∀ j, start ≤ j < start + k → ∃ error, func j = Fails error) →
  func (start + k) = Succeeds value →
  start + k < max_retries → k < n →
  retry_loop max_retries func (seq start n) done
  = (Returns (Some value),
     Effort (calls done + k + 1) (slept done + (2 ^ (start + k) - 2 ^ start))).
Proof.
  revert n start done. induction k as [|k IH]; intros n start done Hfail Hok Hmax Hn.
  - destruct n as [|n]; [lia|]. simpl. rewrite Nat.add_0_r in Hok. rewrite Hok.
    rewrite !Nat.add_0_r, Nat.sub_diag, Nat.add_0_r. do 2 f_equal. lia.
  - destruct n as [|n]; [lia|]. simpl.
    destruct (Hfail start ltac:(lia)) as [error ->].
    destruct (Nat.eqb_spec start (max_retries - 1)); [lia|].
    rewrite (IH n (S start)).
    + replace (S start + k) with (start + S k) by lia.
      assert (2 ^ S start ≤ 2 ^ (start + S k)) as Hle by (apply Nat.pow_le_mono_r; lia).
      rewrite pow2_step in Hle |- *.
      revert Hle. generalize (2 ^ (start + S k)) (2 ^ start). intros b a Hle.
      cbn [calls slept]. do 2 f_equal; lia.
    + intros j Hj. apply Hfail. lia.
    + by replace (S start + k) with (start + S k) by lia.
    + lia.
    + lia.
Qed.

Lemma retry_loop_all_fail {A E} max_retries (func : nat → attempt_outcome A E)
    error n start done :
  (∀ j, start ≤ j < max_retries - 1 → ∃ e, func j = Fails e) →
  func (max_retries - 1) = Fails error →
  start + n = max_retries → 1 ≤ n →
  retry_loop max_retries func (seq start n) done
  = (Raises error,
     Effort (calls done + n) (slept done + (2 ^ (max_retries - 1) - 2 ^ start))).
Proof.
  revert start done. induction n as [|n IH]; intros start done Hfail Hlast Hsum Hn; [lia|].
  simpl. destruct (Nat.eqb_spec start (max_retries - 1)) as [Heq|Hne].
  - rewrite Heq, Hlast. rewrite Nat.sub_diag, Nat.add_0_r.
    do 2 f_equal. lia.
  - destruct (Hfail start ltac:(lia)) as [e ->].
    rewrite (IH (S start)) by (done || lia || (intros j Hj; apply Hfail; lia)).
    assert (2 ^ S start ≤ 2 ^ (max_retries - 1)) as Hle by (apply Nat.pow_le_mono_r; lia).
    rewrite pow2_step in Hle |- *.
    revert Hle. generalize (2 ^ (max_retries - 1)) (2 ^ start). intros b a Hle.
    cbn [calls slept]. do 2 f_equal; lia.
Qed.

(** [_retry_operation] returns the value of the first attempt that
    succeeds, after [k + 1] calls and [2^k - 1] seconds of back-off when
    that is attempt [k]; when all [max_retries] attempts fail it raises
    the exception of the last one, having slept [2^(max_retries-1) - 1]
    seconds; and with [max_retries] at 0 it returns [None] without
    calling the function at all. *)
Theorem retry_operation_spec {A E} (max_retries : nat) (func : nat → attempt_outcome A E) :
  (∀ k value,
     k < max_retries →
     (∀ j, j < k → ∃ error, func j = Fails error) →
     func k = Succeeds value →
     _retry_operation max_retries func
     = (Returns (Some value), Effort (k + 1) (2 ^ k - 1))) ∧
  (∀ error,
     1 ≤ max_retries →
     (∀ j, j < max_retries - 1 → ∃ e, func j = Fails e) →
     func (max_retries - 1) = Fails error →
     _retry_operation max_retries func
     = (Raises error, Effort max_retries (2 ^ (max_retries - 1) - 1))) ∧
  (max_retries = 0 → _retry_operation max_retries func = (Returns None, Effort 0 0)).
Proof.
  unfold _retry_operation. split; [|split].
  - intros k value Hk Hfail Hok.
    rewrite (retry_loop_first_success max_retries func k value); simpl; try done.
    intros j Hj. apply Hfail. lia.
  - intros error Hmax Hfail Hlast.
    rewrite (retry_loop_all_fail max_retries func error); simpl; try done.
    intros j Hj. apply Hfail. lia.
  - by intros ->.
Qed.

Lemma retry_operation_spec_witness :
  _retry_operation 3 (λ attempt, if attempt <? 2 then Fails "timeout" else Succeeds 7)
  = (Returns (Some 7), Effort (2 + 1) (2 ^ 2 - 1)).
Proof.
  apply (proj1 (retry_operation_spec 3
                  (λ attempt, if attempt <? 2 then Fails "timeout" else Succeeds 7)) 2 7).
  - lia.
  - intros j Hj. exists "timeout". destruct j as [|[|j]]; [done|done|lia].
  - done.
Defined.

(** ** The batches of a city *)

Lemma batches_cover (len batch_size : nat) :
  1 ≤ batch_size →
  let n := (len + batch_size - 1) / batch_size in
  len ≤ n * batch_size ∧ (1 ≤ n → (n - 1) * batch_size + 1 ≤ len).
Proof.
  intros Hb n.
  pose proof (Nat.div_mod_eq (len + batch_size - 1) batch_size) as Hdiv.
  pose proof (Nat.mod_upper_bound (len + batch_size - 1) batch_size ltac:(lia)) as Hmod.
  fold n in Hdiv. split; [nia|]. intros Hn.
  destruct n as [|m]; [lia|]. simpl. rewrite Nat.sub_0_r. nia.
Qed.

Lemma total_batches_count (len batch_size : nat) :
  1 ≤ batch_size → 1 ≤ len →
  (len - 1) / batch_size + 1 = (len + batch_size - 1) / batch_size.
Proof.
  intros Hb Hlen. replace (len + batch_size - 1) with (len - 1 + 1 * batch_size) by lia.
  rewrite Nat.div_add by lia. done.
Qed.

(** With a batch size of at least 1 the batch loop of [scrape_city] cuts
    the links into consecutive batches that together are all the links in
    their order: there are [ceil(len / batch_size)] of them, each holds
    between 1 and [batch_size] links and every one but the last is full,
    and round [k] (from 0) logs batch number [k + 1] out of a total that
    is the number of batches.  A batch size of 0 makes [range] raise. *)
Theorem listing_batches_partition {A} (all_links : list A) (batch_size : nat) :
  (1 ≤ batch_size →
   ∃ batches,
     listing_batches all_links batch_size = Some batches ∧
     concat (snd <$> batches) = all_links ∧
     length batches = (length all_links + batch_size - 1) / batch_size ∧
     ∀ k batch_num total_batches batch,
       batches !! k = Some (batch_num, total_batches, batch) →
       batch_num = k + 1 ∧ total_batches = length batches ∧
       1 ≤ length batch ≤ batch_size ∧
       (k + 1 < length batches → length batch = batch_size)) ∧
  (batch_size = 0 → listing_batches all_links batch_size = None).
Proof.
  split; [|by intros ->].
  intros Hb. unfold listing_batches, py_range.
  destruct batch_size as [|b] eqn:Hbs; [lia|]. rewrite <- Hbs in *.
  set (n := (length all_links + batch_size - 1) / batch_size).
  destruct (batches_cover (length all_links) batch_size Hb) as [Hcover Hlast].
  fold n in Hcover, Hlast.
  eexists. split; [done|]. split; [|split].
  - rewrite <- !list_fmap_compose.
    rewrite (list_fmap_ext _
      (λ i, slice all_links (i * batch_size) (i * batch_size + batch_size)))
      by (intros; done).
    rewrite concat_even_chunks. by apply take_ge.
  - by rewrite !length_fmap, length_seq.
  - intros k batch_num total_batches batch Hk.
    rewrite !length_fmap, length_seq.
    rewrite <- list_fmap_compose, list_lookup_fmap in Hk.
    destruct (seq 0 n !! k) as [i|] eqn:Hi; [|done].
    apply lookup_seq in Hi as [-> Hlt]. simpl in Hlt, Hk.
    injection Hk as <- <- <-.
    rewrite Nat.div_mul by lia.
    split; [done|]. split; [apply total_batches_count; lia|].
    unfold slice. rewrite length_take, length_drop.
    replace (k * batch_size + batch_size - k * batch_size) with batch_size by lia.
    split; [nia|]. intros Hnext. nia.
Qed.

Lemma listing_batches_partition_witness :
  ∃ batches,
    listing_batches ["a"; "b"; "c"; "d"; "e"] 2 = Some batches ∧
    concat (snd <$> batches) = ["a"; "b"; "c"; "d"; "e"] ∧
    length batches = (length ["a"; "b"; "c"; "d"; "e"] + 2 - 1) / 2 ∧
    ∀ k batch_num total_batches batch,
      batches !! k = Some (batch_num, total_batches, batch) →
      batch_num = k + 1 ∧ total_batches = length batches ∧
      1 ≤ length batch ≤ 2 ∧
      (k + 1 < length batches → length batch = 2).
Proof.
  apply (proj1 (listing_batches_partition ["a"; "b"; "c"; "d"; "e"] 2)). lia.
Defined.

(** ** Coordinates *)

Lemma extract_coordinates_skips py_float search before rest :
  (∀ p, p ∈ before → search p = None) →
  _extract_coordinates py_float search (before ++ rest)
  = _extract_coordinates py_float search rest.
Proof.
  induction before as [|p before IH]; intros Hnone; [done|].
  simpl. rewrite (Hnone p) by left. apply IH. intros q Hq. apply Hnone. by right.
Qed.

(** [_extract_coordinates] lets the first pattern that matches decide:
    its two groups go to [validate_coordinates] and the result of that is
    returned, also when it is [(None, None)] and a later pattern matches;
    without any match the result is [(None, None)].  So a returned pair
    is complete and lies in [-90, 90] x [-180, 180]. *)
Theorem extract_coordinates_first_match py_float search :
  (∀ before pattern after lat lng,
     (∀ p, p ∈ before → search p = None) →
     search pattern = Some (lat, lng) →
     _extract_coordinates py_float search (before ++ pattern :: after)
     = validate_coordinates py_float lat lng) ∧
  (∀ patterns,
     (∀ p, p ∈ patterns → search p = None) →
     _extract_coordinates py_float search patterns = (None, None)) ∧
  (∀ patterns,
     _extract_coordinates py_float search patterns = (None, None) ∨
     ∃ a b,
       _extract_coordinates py_float search patterns = (Some a, Some b) ∧
       between (-90) 90 a ∧ between (-180) 180 b).
Proof.
  split; [|split].
  - intros before pattern after lat lng Hnone Hmatch.
    rewrite extract_coordinates_skips by done. simpl. by rewrite Hmatch.
  - intros patterns Hnone.
    rewrite <- (app_nil_r patterns). by rewrite extract_coordinates_skips.
  - intros l. induction l as [|p l IH]; [by left|]. simpl.
    destruct (search p) as [[lat lng]|]; [|done].
    destruct (validate_coordinates_total py_float lat lng) as [H|(a & b & H)]; [by left|].
    right. exists a, b. split; [done|].
    apply validate_coordinates_accepts in H. tauto.
Qed.

Lemma extract_coordinates_first_match_witness :
  _extract_coordinates float_of_text
    (λ p, if p =? 1 then Some ("91", "10") else if p =? 2 then Some ("45.5", "-73.6") else None)
    ([0] ++ 1 :: [2])
  = validate_coordinates float_of_text "91" "10".
Proof.
  apply (proj1 (extract_coordinates_first_match float_of_text
    (λ p, if p =? 1 then Some ("91", "10") else if p =? 2 then Some ("45.5", "-73.6") else None))).
  - intros p Hp. apply list_elem_of_singleton in Hp as ->. done.
  - done.
Defined.

Lemma extract_coordinates_shape py_float search l :
  extract_coordinates py_float search l = (None, None) ∨
  ∃ lat lon, extract_coordinates py_float search l = (Some lat, Some lon).
Proof.
  induction l as [|p l IH]; [by left|]. simpl.
  destruct (search p) as [[lat lon]|]; [|done].
  destruct (py_float lat) as [a|]; [|done].
  destruct (py_float lon) as [b|]; [|done].
  right. by exists a, b.
Qed.

(** [extract_coordinates] of multi_thread_booking_scraper.py returns the
    pair parsed from the first pattern whose match parses as two floats:
    a pattern without a match, or whose match does not parse, sends the
    loop on to the next one.  A returned pair always comes from such a
    match, and no range is imposed on it. *)
Theorem extract_coordinates_first_parsable py_float search :
  (∀ before pattern after lat lon a b,
     (∀ p x y, p ∈ before → search p = Some (x, y) →
               py_float x = None ∨ py_float y = None) →
     search pattern = Some (lat, lon) →
     py_float lat = Some a → py_float lon = Some b →
     extract_coordinates py_float search (before ++ pattern :: after)
     = (Some a, Some b)) ∧
  (∀ l a b,
     extract_coordinates py_float search l = (Some a, Some b) →
     ∃ p lat lon,
       p ∈ l ∧ search p = Some (lat, lon) ∧
       py_float lat = Some a ∧ py_float lon = Some b) ∧
  (∀ l, extract_coordinates py_float search l = (None, None) ∨
        ∃ a b, extract_coordinates py_float search l = (Some a, Some b)).
Proof.
  split; [|split].
  - intros before pattern after lat lon a b Hskip Hmatch Hlat Hlon.
    induction before as [|p before IH]; simpl.
    + by rewrite Hmatch, Hlat, Hlon.
    + assert (extract_coordinates py_float search (before ++ pattern :: after)
              = (Some a, Some b)) as Hrest.
      { apply IH. intros q x y Hq. apply Hskip. by right. }
      destruct (search p) as [[x y]|] eqn:Hp; [|done].
      destruct (Hskip p x y ltac:(left) Hp) as [-> | Hy]; [done|].
      rewrite Hy. by destruct (py_float x).
  - intros l a b. induction l as [|p l IH]; simpl; [discriminate|].
    intros Hfound.
    assert (extract_coordinates py_float search l = (Some a, Some b) →
            ∃ q lat lon, q ∈ p :: l ∧ search q = Some (lat, lon) ∧
                         py_float lat = Some a ∧ py_float lon = Some b) as Hrest.
    { intros H. destruct (IH H) as (q & lat & lon & Hq & Hmatch).
      exists q, lat, lon. split; [by right|done]. }
    destruct (search p) as [[lat lon]|] eqn:Hp; [|by apply Hrest].
    destruct (py_float lat) as [x|] eqn:Hlat; [|by apply Hrest].
    destruct (py_float lon) as [y|] eqn:Hlon; [|by apply Hrest].
    injection Hfound as <- <-. exists p, lat, lon. repeat split; try done. by left.
  - apply extract_coordinates_shape.
Qed.

Lemma extract_coordinates_first_parsable_witness :
  extract_coordinates float_of_text
    (λ p, if p =? 0 then Some ("4x.5", "10") else if p =? 1 then Some ("45.5", "-73.6") else None)
    ([0] ++ 1 :: [])
  = (Some 45.5%float, Some (-73.6)%float).
Proof.
  apply (proj1 (extract_coordinates_first_parsable float_of_text
    (λ p, if p =? 0 then Some ("4x.5", "10") else if p =? 1 then Some ("45.5", "-73.6") else None))
    [0] 1 [] "45.5" "-73.6").
  - intros p x y Hp. apply list_elem_of_singleton in Hp as ->.
    intros [= <- <-]. left. by vm_compute.
  - done.
  - by vm_compute.
  - by vm_compute.
Defined.

Lemma location_details_keys response key :
  key ∉ ["address"; "zone"; "city"] →
  get_location_details response !! key = None.
Proof.
  intros Hkey.
  assert (key ≠ "address" ∧ key ≠ "zone" ∧ key ≠ "city") as (Ha & Hz & Hc).
  { repeat split; intros ->; apply Hkey; set_solver. }
  destruct response as [answer|]; unfold get_location_details;
    by rewrite !lookup_insert_ne, lookup_singleton_ne.
Qed.

Lemma location_details_set response key :
  key ∈ ["address"; "zone"; "city"] →
  is_Some (get_location_details response !! key).
Proof.
  intros Hkey.
  assert (key = "address" ∨ key = "zone" ∨ key = "city") as Hcases by set_solver.
  destruct response as [answer|]; unfold get_location_details;
    destruct Hcases as [-> | [-> | ->]].
  all: try (rewrite lookup_insert_eq; by eexists).
  all: try (rewrite lookup_insert_ne by done; rewrite lookup_insert_eq; by eexists).
  all: rewrite !lookup_insert_ne by done; rewrite lookup_singleton_eq; by eexists.
Qed.

(** The location step of [scrape_property_data] changes the record only
    when [extract_coordinates] finds a pair of which neither number is
    zero: then latitude and longitude are set to the pair, address, zone
    and city are replaced by what [get_location_details] returns (its
    [None]s included) and every other field keeps its value.  A pair with
    a zero in it is dropped like a missing one, and the record stays as it
    was. *)
Theorem locate_spec py_float search geocode data :
  let found := extract_coordinates py_float search [0; 1] in
  let result := locate py_float search geocode data in
  (∀ lat lon,
     found = (Some lat, Some lon) →
     (lat =? 0)%float = false → (lon =? 0)%float = false →
     result !! "latitude" = Some (PFloat lat) ∧
     result !! "longitude" = Some (PFloat lon) ∧
     (∀ key, key ∈ ["address"; "zone"; "city"] →
        result !! key = get_location_details (geocode lat lon) !! key ∧
        is_Some (result !! key)) ∧
     (∀ key, key ∉ ["latitude"; "longitude"; "address"; "zone"; "city"] →
        result !! key = data !! key)) ∧
  (∀ lat lon,
     found = (Some lat, Some lon) →
     (lat =? 0)%float = true ∨ (lon =? 0)%float = true →
     result = data) ∧
  (found = (None, None) → result = data).
Proof.
  intros found result. subst result. unfold locate. fold found.
  split; [|split].
  - intros lat lon -> Hlat Hlon. cbn [truthy]. rewrite Hlat, Hlon. cbn [negb andb].
    split; [|split; [|split]].
    + rewrite lookup_union_r by (apply location_details_keys; set_solver).
      rewrite lookup_insert_ne by done. by rewrite lookup_insert_eq.
    + rewrite lookup_union_r by (apply location_details_keys; set_solver).
      by rewrite lookup_insert_eq.
    + intros key Hkey.
      destruct (location_details_set (geocode lat lon) key Hkey) as [v Hv].
      rewrite (lookup_union_Some_l _ _ _ _ Hv). by rewrite Hv.
    + intros key Hkey.
      rewrite lookup_union_r by (apply location_details_keys; set_solver).
      rewrite !lookup_insert_ne; [done|intros <-; set_solver..].
  - intros lat lon -> Hzero. cbn [truthy].
    destruct Hzero as [-> | ->]; [done|]. by destruct (lat =? 0)%float.
  - by intros ->.
Qed.

Lemma locate_spec_witness :
  let search := λ p, if p =? 0 then Some ("45.5", "-73.6") else None in
  let result := locate float_of_text search (λ _ _, Some casablanca) titled_only in
  result !! "latitude" = Some (PFloat 45.5) ∧
  result !! "longitude" = Some (PFloat (-73.6)) ∧
  (∀ key, key ∈ ["address"; "zone"; "city"] →
     result !! key = get_location_details (Some casablanca) !! key ∧
     is_Some (result !! key)) ∧
  (∀ key, key ∉ ["latitude"; "longitude"; "address"; "zone"; "city"] →
     result !! key = titled_only !! key).
Proof.
  intros search result.
  apply (proj1 (locate_spec float_of_text search (λ _ _, Some casablanca) titled_only)
           45.5%float (-73.6)%float); by vm_compute.
Defined.

(** ** The summary *)

Lemma bump_keys city counts :
  (Summary.bump city counts).*1
  = if decide (city ∈ counts.*1) then counts.*1 else counts.*1 ++ [city].
Proof.
  induction counts as [|[key count] counts IH].
  - by rewrite decide_False by (by intros ?%elem_of_nil).
  - cbn [Summary.bump]. rewrite !fmap_cons. cbn [fst].
    destruct (String.eqb_spec key city) as [->|Hne].
    + by rewrite decide_True by left.
    + rewrite fmap_cons, IH. cbn [fst]. destruct (decide (city ∈ counts.*1)) as [Hin|Hnot].
      * by rewrite decide_True by (by right).
      * rewrite decide_False; [done|].
        intros [?|?]%elem_of_cons; [by apply Hne|by apply Hnot].
Qed.

Lemma bump_sum city counts :
  sum_list (Summary.bump city counts).*2 = sum_list counts.*2 + 1.
Proof.
  induction counts as [|[key count] counts IH]; [done|].
  cbn [Summary.bump]. destruct (String.eqb key city); rewrite !fmap_cons; cbn [snd].
  - change (count + 1 + sum_list counts.*2 = count + sum_list counts.*2 + 1). lia.
  - change (count + sum_list (Summary.bump city counts).*2 = count + sum_list counts.*2 + 1).
    rewrite IH. lia.
Qed.

Lemma bump_elem city counts key n :
  NoDup counts.*1 →
  (key, n) ∈ Summary.bump city counts →
  (key ≠ city ∧ (key, n) ∈ counts) ∨
  (key = city ∧ ((∃ m, (city, m) ∈ counts ∧ n = m + 1) ∨ ((city ∉ counts.*1) ∧ n = 1))).
Proof.
  induction counts as [|[k count] counts IH]; simpl; intros Hnd.
  - intros H. apply list_elem_of_singleton in H. injection H as -> ->.
    right. split; [done|]. right. split; [set_solver|done].
  - apply NoDup_cons in Hnd as [Hk Hnd].
    destruct (String.eqb_spec k city) as [->|Hne]; intros H; apply elem_of_cons in H as [H|H].
    + injection H as -> ->. right. split; [done|]. left. exists count. split; [by left|done].
    + left. split; [|by right]. intros ->. apply Hk.
      apply list_elem_of_fmap. by exists (city, n).
    + injection H as -> ->. left. split; [done|by left].
    + destruct (IH Hnd H) as [[Hkey Hin]|[-> [(m & Hm & ->)|[Hnot ->]]]].
      * left. split; [done|by right].
      * right. split; [done|]. left. exists m. split; [by right|done].
      * right. split; [done|]. right. split; [set_solver|done].
Qed.

Lemma results_of_snoc key results r :
  results_of key (results ++ [r])
  = results_of key results + (if decide (ApartmentCsv.city r = key) then 1 else 0).
Proof.
  unfold results_of. rewrite filter_app, length_app. f_equal.
  rewrite filter_cons, filter_nil. by case_decide.
Qed.

Lemma results_of_none key results :
  key ∉ ApartmentCsv.city <$> results → results_of key results = 0.
Proof.
  unfold results_of. induction results as [|r results IH]; [done|].
  intros Hnot. rewrite filter_cons. case_decide as Hr.
  - destruct Hnot. rewrite fmap_cons, Hr. by left.
  - apply IH. intros Hin. apply Hnot. rewrite fmap_cons. by right.
Qed.

Lemma results_of_some key results :
  key ∈ ApartmentCsv.city <$> results → 1 ≤ results_of key results.
Proof.
  unfold results_of. induction results as [|r results IH]; [by intros ?%elem_of_nil|].
  rewrite fmap_cons, filter_cons. intros Hin. case_decide as Hr; [simpl; lia|].
  apply elem_of_cons in Hin as [Hin|Hin]; [done|by apply IH].
Qed.

Lemma elem_of_cities_in_order key results :
  key ∈ cities_in_order results ↔ key ∈ ApartmentCsv.city <$> results.
Proof.
  unfold cities_in_order. by rewrite elem_of_reverse, elem_of_remove_dups, elem_of_reverse.
Qed.

Lemma remove_dups_cons (x : string) l :
  remove_dups (x :: l) = if decide (x ∈ l) then remove_dups l else x :: remove_dups l.
Proof. done. Qed.

Lemma cities_in_order_snoc results r :
  cities_in_order (results ++ [r])
  = if decide (ApartmentCsv.city r ∈ cities_in_order results) then cities_in_order results
    else cities_in_order results ++ [ApartmentCsv.city r].
Proof.
  unfold cities_in_order at 1. rewrite fmap_app, reverse_app.
  change (reverse (ApartmentCsv.city <$> [r]) ++ reverse (ApartmentCsv.city <$> results))
    with (ApartmentCsv.city r :: reverse (ApartmentCsv.city <$> results)).
  rewrite remove_dups_cons.
  destruct (decide (ApartmentCsv.city r ∈ reverse (ApartmentCsv.city <$> results)))
    as [Hin|Hnot].
  - rewrite decide_True; [done|]. apply elem_of_cities_in_order. by apply elem_of_reverse.
  - rewrite decide_False; [by rewrite reverse_cons|].
    intros Hin. apply Hnot. apply elem_of_reverse. by apply elem_of_cities_in_order.
Qed.

Lemma NoDup_cities_in_order results : NoDup (cities_in_order results).
Proof. unfold cities_in_order. rewrite reverse_Permutation. apply NoDup_remove_dups. Qed.

Lemma city_counts_inv results :
  (Summary.city_counts results).*1 = cities_in_order results ∧
  sum_list (Summary.city_counts results).*2 = length results ∧
  ∀ key n, (key, n) ∈ Summary.city_counts results → n = results_of key results.
Proof.
  induction results as [|r results (Hkeys & Hsum & Hcount)] using rev_ind.
  - split; [done|]. split; [done|]. by intros key n ?%elem_of_nil.
  - assert (Summary.city_counts (results ++ [r])
            = Summary.bump (ApartmentCsv.city r) (Summary.city_counts results)) as ->
      by (unfold Summary.city_counts; by rewrite foldl_app).
    split; [|split].
    + by rewrite bump_keys, cities_in_order_snoc, Hkeys.
    + rewrite bump_sum, Hsum, length_app. done.
    + intros key n Hin. rewrite results_of_snoc.
      apply bump_elem in Hin as [[Hkey Hin]|[-> [(m & Hm & ->)|[Hnot ->]]]].
      * rewrite decide_False by done. rewrite (Hcount key n Hin). lia.
      * rewrite decide_True by done. by rewrite (Hcount _ m Hm).
      * rewrite decide_True by done. rewrite results_of_none; [done|].
        rewrite Hkeys in Hnot. by rewrite <- elem_of_cities_in_order.
      * rewrite Hkeys. apply NoDup_cities_in_order.
Qed.

Lemma count_if_le p results : Summary.count_if p results ≤ length results.
Proof.
  unfold Summary.count_if. induction results as [|r results IH]; [done|].
  cbn [List.filter length]. destruct (p r); [|lia].
  rewrite fmap_cons.
  change (1 + sum_list ((λ _, 1) <$> List.filter p results) ≤ S (length results)). lia.
Qed.

(** On a non-empty list of results [print_summary] reports a city
    breakdown that lists every city of the results once, in the order of
    first appearance, each with the number of its results, so that the
    counts add up to the reported total, the length of the list; none of
    the four quality metrics exceeds that total.  On an empty list it
    reports no figures at all. *)
Theorem print_summary_adds_up (results : list ApartmentCsv.ApartmentData) :
  (results ≠ [] →
   ∃ s,
     Summary.print_summary results = Some s ∧
     Summary.total s = length results ∧
     (Summary.breakdown s).*1 = cities_in_order results ∧
     NoDup (Summary.breakdown s).*1 ∧
     (∀ city, city ∈ (Summary.breakdown s).*1 ↔ city ∈ ApartmentCsv.city <$> results) ∧
     (∀ city n, (city, n) ∈ Summary.breakdown s →
                n = results_of city results ∧ 1 ≤ n) ∧
     sum_list (Summary.breakdown s).*2 = Summary.total s ∧
     Summary.with_price s ≤ Summary.total s ∧
     Summary.with_wifi s ≤ Summary.total s ∧
     Summary.with_bedrooms s ≤ Summary.total s ∧
     Summary.with_rating s ≤ Summary.total s) ∧
  (results = [] → Summary.print_summary results = None).
Proof.
  split; [|by intros ->].
  intros Hsome. destruct (city_counts_inv results) as (Hkeys & Hsum & Hcount).
  destruct results as [|r results]; [done|].
  eexists. split; [done|]. cbn [Summary.total Summary.breakdown Summary.with_price
    Summary.with_wifi Summary.with_bedrooms Summary.with_rating].
  repeat split; try done; try apply count_if_le.
  - rewrite Hkeys. apply NoDup_cities_in_order.
  - rewrite Hkeys. apply elem_of_cities_in_order.
  - rewrite Hkeys. apply elem_of_cities_in_order.
  - by apply Hcount.
  - rewrite (Hcount _ _ H). apply results_of_some, elem_of_cities_in_order.
    rewrite <- Hkeys. apply list_elem_of_fmap. by exists (city, n).
Qed.

Lemma print_summary_adds_up_witness :
  ∃ s,
    Summary.print_summary [studio_gueliz; studio_gueliz] = Some s ∧
    Summary.total s = length [studio_gueliz; studio_gueliz] ∧
    (Summary.breakdown s).*1 = cities_in_order [studio_gueliz; studio_gueliz] ∧
    NoDup (Summary.breakdown s).*1 ∧
    (∀ city, city ∈ (Summary.breakdown s).*1
             ↔ city ∈ ApartmentCsv.city <$> [studio_gueliz; studio_gueliz]) ∧
    (∀ city n, (city, n) ∈ Summary.breakdown s →
               n = results_of city [studio_gueliz; studio_gueliz] ∧ 1 ≤ n) ∧
    sum_list (Summary.breakdown s).*2 = Summary.total s ∧
    Summary.with_price s ≤ Summary.total s ∧
    Summary.with_wifi s ≤ Summary.total s ∧
    Summary.with_bedrooms s ≤ Summary.total s ∧
    Summary.with_rating s ≤ Summary.total s.
Proof.
  apply (proj1 (print_summary_adds_up [studio_gueliz; studio_gueliz])). discriminate.
Defined.
